(** * lingpy.basic.dictionary: the alias-aware column registry, [add_entries],
      [get_tuples] and [tokenize] of class [Dictionary]

    A shallow embedding of [src/lingpy/basic/dictionary.py].  Python objects
    are mutable and shared; the embedding threads the [Dictionary] instance
    and the console through every call, and a call that raises keeps the
    mutations it had already made. *)

From Stdlib Require Import ZArith String Ascii List Sorted Lia.
From stdpp Require Import base option list gmap strings fin_maps.
From Equations Require Import Equations.

Local Open Scope string_scope.
Local Open Scope list_scope.
Local Open Scope Z_scope.

(** ** Python values and exceptions *)

(** The values the rows hold and the transforms exchange: [None], integers
    (the index lists handed to a multi-column transform), strings, lists
    (token sequences, whole rows) and tuples (the projections of
    [get_tuples]). *)
#[warnings="-register-all"]
Inductive pyval : Type :=
| VNone
| VInt (z : Z)
| VStr (s : string)
| VList (l : list pyval)
| VTuple (l : list pyval).

(** The exceptions the code can run into.  [KeyError] carries the key that
    was looked up, [Exception] stands for whatever a user transform raises. *)
Inductive exn : Type :=
| KeyError (k : pyval)
| IndexError
| ValueError
| TypeError
| EOFError
| Exception (msg : string).

(** A computation that returns ([inr]) or raises ([inl]). *)
Definition res : Type → Type := sum exn.

#[global] Instance res_ret : MRet res := λ A x, inr x.
#[global] Instance res_bind : MBind res := λ A B f m,
  match m with
  | inl e => inl e
  | inr x => f x
  end.
#[global] Instance res_fmap : FMap res := λ A B f m,
  match m with
  | inl e => inl e
  | inr x => inr (f x)
  end.

Definition raise {A} (e : exn) : res A := inl e.

(** [d[k]] on a dict with string keys. *)
Definition dict_get {V} (m : gmap string V) (k : string) : res V :=
  match m !! k with
  | Some v => inr v
  | None => raise (KeyError (VStr k))
  end.

(** [seq[i]] on a Python list: indices [0 .. len-1] count from the front,
    [-len .. -1] from the back, anything else raises [IndexError]. *)
Definition py_index {A} (l : list A) (i : Z) : res nat :=
  let n := Z.of_nat (length l) in
  if decide (0 ≤ i < n) then inr (Z.to_nat i)
  else if decide (- n ≤ i < 0) then inr (Z.to_nat (n + i))
  else raise IndexError.

Definition py_getitem (l : list pyval) (i : Z) : res pyval :=
  k ← py_index l i;
  match l !! k with
  | Some v => inr v
  | None => raise IndexError
  end.

(** [seq[i] = v]. *)
Definition py_setitem (l : list pyval) (i : Z) (v : pyval) : res (list pyval) :=
  k ← py_index l i; mret (<[k:=v]> l).

(** [mapM] of the [res] monad, written out: the first element that raises
    stops the traversal. *)
Fixpoint res_mapM {A B} (f : A → res B) (l : list A) : res (list B) :=
  match l with
  | [] => inr []
  | x :: l' =>
      match f x with
      | inl e => inl e
      | inr y =>
          match res_mapM f l' with
          | inl e => inl e
          | inr ys => inr (y :: ys)
          end
      end
  end.

(** ** Strings *)

(** [',' in s] for a string [s]. *)
Fixpoint str_contains (c : ascii) (s : string) : bool :=
  match s with
  | EmptyString => false
  | String c' s' => if Ascii.eqb c' c then true else str_contains c s'
  end.

(** [s.split(c)] for a one-character separator: the result is never empty,
    and two adjacent separators delimit an empty string. *)
Fixpoint str_split (c : ascii) (s : string) : list string :=
  match s with
  | EmptyString => [EmptyString]
  | String c' s' =>
      if Ascii.eqb c' c then EmptyString :: str_split c s'
      else match str_split c s' with
           | [] => [String c' EmptyString]
           | w :: ws => String c' w :: ws
           end
  end.

(** ** The Dictionary instance *)

Definition row : Type := list pyval.

(** Modelled from the spec: the attributes that the base class [_QLCParser]
    of [lingpy.basic._parser] sets up and that [get_tuples], [add_entries]
    and [tokenize] read or write.  [_alias] maps an alias to its canonical
    name, [_alias2] a canonical name to its alias set, [header] a canonical
    name to its column index, [_header] every alias to that index; [entries]
    is the sorted list of known names.  [_data] is the row store: a dict
    from row key to the row's value list, kept here as its item list in
    iteration order. *)
Record Dictionary : Type := mkDictionary {
  _alias : gmap string string;
  _alias2 : gmap string (list string);
  header : gmap string Z;
  _header : gmap string Z;
  entries : list string;
  _data : list (Z * row)
}.

(** ** get_tuples (lines 109-142) *)

(** Lines 128-131: the indices of the requested columns that are in
    [_header], in the order requested. *)
Definition get_idxs (columns : list string) (d : Dictionary) : list Z :=
  omap (λ entry, _header d !! entry) columns.

(** [itemgetter] applied to the unpacked index list and then to a row, for
    two or more indices, wrapped by [tuple]. *)
Definition itemgetter (idxs : list Z) (r : row) : res pyval :=
  VTuple <$> res_mapM (py_getitem r) idxs.

(** Lines 133-142.  With one index the entries are the bare values, with
    more they are tuples, with none the list stays empty.  A caller that
    leaves [columns] out gets [["head"; "translation"]]. *)
Definition get_tuples (columns : list string) (d : Dictionary) : res (list pyval) :=
  match get_idxs columns d with
  | [] => inr []
  | [i] => res_mapM (λ kr, py_getitem kr.2 i) (_data d)
  | idxs => res_mapM (λ kr, itemgetter idxs kr.2) (_data d)
  end.

(** ** Builtins used by add_entries *)

(** [max(seq)] on integers: [ValueError] on an empty sequence. *)
Definition py_max (l : list Z) : res Z :=
  match l with
  | [] => raise ValueError
  | x :: l' => inr (foldr Z.max x l')
  end.

(** [d.values()], as a list; [py_max] does not depend on its order. *)
Definition dict_values (m : gmap string Z) : list Z := (map_to_list m).*2.

(** One insertion into a strictly increasing list of strings; a string that
    is already there is not inserted again.  [String.compare] orders strings
    as Python orders [str]: position by position, a proper prefix first. *)
Fixpoint sorted_insert (x : string) (l : list string) : list string :=
  match l with
  | [] => [x]
  | y :: l' =>
      match String.compare x y with
      | Lt => x :: y :: l'
      | Eq => y :: l'
      | Gt => y :: sorted_insert x l'
      end
  end.

(** [sorted(set(l))]: the distinct elements of [l] in increasing order. *)
Definition sorted_set (l : list string) : list string := foldr sorted_insert [] l.

(** ** The console *)

(** Standard input as the lines still to be read, standard output as the
    chunks written so far. *)
Record console : Type := mkConsole {
  stdin : list string;
  stdout : list string
}.

Definition newline : string := String (ascii_of_nat 10) EmptyString.

(** [print(s, end=e)]. *)
Definition print (s e : string) (w : console) : console :=
  {| stdin := stdin w; stdout := stdout w ++ [s +:+ e] |}.

(** ** The row loop *)

(** Modelled from the spec: the row access of [_QLCParser].  [for key in
    self] walks the keys of the row store and [self[key]] is the row list
    itself, so a loop [for key in self: ... self[key] ...] visits each item
    once, in iteration order.  The body computes the new content of the row
    or raises; a raise leaves the rows already visited changed and the
    remaining ones as they were. *)
Fixpoint for_rows (body : Z → row → res row) (items : list (Z * row))
  : option exn * list (Z * row) :=
  match items with
  | [] => (None, [])
  | (key, r) :: rest =>
      match body key r with
      | inl e => (Some e, (key, r) :: rest)
      | inr r' =>
          let '(e, rest') := for_rows body rest in (e, (key, r') :: rest')
      end
  end.

(** ** Effects on the instance *)

(** A method body: it reads and writes the instance and returns or raises;
    what it wrote before raising stays written. *)
Definition M (A : Type) : Type := Dictionary → res A * Dictionary.

#[global] Instance M_ret : MRet M := λ A x d, (inr x, d).
#[global] Instance M_bind : MBind M := λ A B f m d,
  match m d with
  | (inl e, d') => (inl e, d')
  | (inr x, d') => f x d'
  end.

(** Read an attribute. *)
Definition get {A} (f : Dictionary → A) : M A := λ d, (inr (f d), d).

(** A pure step that may raise. *)
Definition lift {A} (r : res A) : M A := λ d, (r, d).

Definition set_alias (v : gmap string string) : M unit := λ d,
  (inr (), mkDictionary v (_alias2 d) (header d) (_header d) (entries d) (_data d)).
Definition set_alias2 (v : gmap string (list string)) : M unit := λ d,
  (inr (), mkDictionary (_alias d) v (header d) (_header d) (entries d) (_data d)).
Definition set_header (v : gmap string Z) : M unit := λ d,
  (inr (), mkDictionary (_alias d) (_alias2 d) v (_header d) (entries d) (_data d)).
Definition set__header (v : gmap string Z) : M unit := λ d,
  (inr (), mkDictionary (_alias d) (_alias2 d) (header d) v (entries d) (_data d)).
Definition set_entries (v : list string) : M unit := λ d,
  (inr (), mkDictionary (_alias d) (_alias2 d) (header d) (_header d) v (_data d)).

(** The row loop as a method step. *)
Definition for_key_in_self (body : Z → row → res row) : M unit := λ d,
  let '(e, items) := for_rows body (_data d) in
  let d' := mkDictionary (_alias d) (_alias2 d) (header d) (_header d) (entries d) items in
  match e with
  | None => (inr (), d')
  | Some e => (inl e, d')
  end.

(** Lines 220-221: [for a in self._alias2[name]: self._header[a] = newIdx]. *)
Definition bind_aliases (newIdx : Z) (aliases : list string) (h : gmap string Z)
  : gmap string Z :=
  foldl (λ h a, <[a := newIdx]> h) h aliases.

(** ** The arguments of add_entries *)

(** Keyword arguments. *)
Definition kwargs : Type := list (string * pyval).

(** A Python callable: positional arguments and keyword arguments to a value
    or an exception.  The transforms are taken to leave the rows they are
    handed untouched. *)
Definition callable : Type := list pyval → kwargs → res pyval.

(** The [source] argument: a string (one column name, or several separated
    by commas) or a dict from row keys to values. *)
Inductive source : Type :=
| SrcStr (s : string)
| SrcDict (m : gmap Z pyval).

(** [',' in source]: a substring test on a string, a key test on a dict,
    whose keys are row keys and so never the string [","]. *)
Definition has_comma (src : source) : bool :=
  match src with
  | SrcStr s => str_contains "," s
  | SrcDict _ => false
  end.

(** [source[key]] on a dict source. *)
Definition source_get (m : gmap Z pyval) (key : Z) : res pyval :=
  match m !! key with
  | Some v => inr v
  | None => raise (KeyError (VInt key))
  end.

(** What a call leaves behind: it returns (the methods here return [None])
    or raises, and either way the console and the instance are as the call
    left them. *)
Inductive outcome : Type :=
| Return (w : console) (d : Dictionary)
| Raise (e : exn) (w : console) (d : Dictionary).

Definition final_dict (o : outcome) : Dictionary :=
  match o with
  | Return _ d => d
  | Raise _ _ d => d
  end.

Definition final_console (o : outcome) : console :=
  match o with
  | Return w _ => w
  | Raise _ w _ => w
  end.

(** Run a method body that does not touch the console. *)
Definition run (m : M unit) (w : console) (d : Dictionary) : outcome :=
  match m d with
  | (inr _, d') => Return w d'
  | (inl e, d') => Raise e w d'
  end.

(** [input(prompt)]: the prompt is written, then a line is read;
    [EOFError] when no line is left. *)
Definition input (prompt : string) (w : console) : option string * console :=
  let out := stdout w ++ [prompt] in
  match stdin w with
  | [] => (None, mkConsole [] out)
  | answer :: rest => (Some answer, mkConsole rest out)
  end.

(** The value of an expression together with the equation that names it. *)
Definition inspect {A} (a : A) : {b : A | a = b} := exist _ a eq_refl.

Section AddEntries.

(** [str.lower] and [str.upper], the builtins of the Python runtime. *)
Variables lower upper : string → string.

(** Line 198: [answer.lower() in ['y','yes','j']]. *)
Definition affirmative (answer : string) : bool :=
  bool_decide (lower answer ∈ ["y"; "yes"; "j"]).

(** Lines 208-211: a name without an alias set gets the default pair. *)
Definition add_alias (entry : string) : M unit :=
  al2 ← get _alias2;
  if bool_decide (lower entry ∈ dom al2) then mret ()
  else
    set_alias2 (<[lower entry := [lower entry; upper entry]]> al2);;
    al ← get _alias;
    set_alias (<[lower entry := lower entry]> al);;
    al ← get _alias;
    set_alias (<[upper entry := lower entry]> al).

(** Lines 206-223: the registry part of the create branch.  It returns the
    canonical name and the new index. *)
Definition register (entry : string) : M (string * Z) :=
  add_alias entry;;
  al ← get _alias;
  name ← lift (dict_get al (lower entry));
  h ← get _header;
  m ← lift (py_max (dict_values h));
  let newIdx := m + 1 in
  al2 ← get _alias2;
  aliases ← lift (dict_get al2 name);
  set__header (bind_aliases newIdx aliases h);;
  h ← get _header;
  i ← lift (dict_get h name);
  hd ← get header;
  set_header (<[name := i]> hd);;
  mret (name, newIdx).

(** Lines 229-268: the three kinds of source in the create branch; every
    row gets the new value appended. *)
Definition create_rows (src : source) (function : callable) (keywords : kwargs) : M unit :=
  if has_comma src then
    match src with
    | SrcStr s =>
        let sources := str_split "," s in
        h ← get _header;
        idxs ← lift (res_mapM (dict_get h) sources);
        for_key_in_self (λ key s,
          t ← function [VList s; VList (VInt <$> idxs)] [];
          mret (s ++ [t]))
    | SrcDict _ => lift (raise TypeError)
    end
  else
    match src with
    | SrcDict m =>
        for_key_in_self (λ key r,
          s ← source_get m key;
          t ← function [s] [];
          mret (r ++ [t]))
    | SrcStr s =>
        h ← get _header;
        idx ← lift (dict_get h s);
        for_key_in_self (λ key r,
          s ← py_getitem r idx;
          t ← function [s] keywords;
          mret (r ++ [t]))
    end.

(** Lines 204-268: the create branch. *)
Definition create_column (entry : string) (src : source) (function : callable)
    (keywords : kwargs) : M unit :=
  register entry;;
  es ← get entries;
  set_entries (sorted_set (es ++ [entry]));;
  create_rows src function keywords.

(** Lines 270-315: the override branch; every row gets the new value
    assigned at the index of the column. *)
Definition replace_column (entry : string) (src : source) (function : callable)
    (keywords : kwargs) : M unit :=
  h ← get _header;
  rIdx ← lift (dict_get h (lower entry));
  if has_comma src then
    match src with
    | SrcStr s =>
        let sources := str_split "," s in
        h ← get _header;
        idxs ← lift (res_mapM (dict_get h) sources);
        for_key_in_self (λ key s,
          t ← function [VList s; VList (VInt <$> idxs)] [];
          py_setitem s rIdx t)
    | SrcDict _ => lift (raise TypeError)
    end
  else
    match src with
    | SrcDict m =>
        for_key_in_self (λ key r,
          s ← source_get m key;
          t ← function [s] [];
          py_setitem r rIdx t)
    | SrcStr s =>
        h ← get _header;
        idx ← lift (dict_get h s);
        for_key_in_self (λ key r,
          s ← py_getitem r idx;
          t ← function [s] keywords;
          py_setitem r rIdx t)
    end.

(** The two lines written by the conflict branch before it reads. *)
Definition conflict_message (entry : string) : string :=
  "[?] Datatype <" +:+ entry +:+ "> has already been produced, ".

Definition conflict_prompt : string := "do you want to override? (y/n) ".

(** Lines 144-315.  The call recurses twice: an override of a name that is
    not in [header] is retried without override (and without the keywords,
    line 189), and an affirmative answer at the prompt calls again with
    override and the keywords (lines 199-200).  Every second call has read
    a line of standard input, which bounds the recursion. *)
Equations? add_entries (entry : string) (src : source) (function : callable)
    (override : bool) (keywords : kwargs) (w : console) (d : Dictionary) : outcome
    by wf (2 * length (stdin w) + (if override then 1 else 0))%nat lt :=
add_entries entry src function override keywords w d
    with bool_decide (entry = "") := {
  | true => Return (print "[i] Entry was not properly specified!" newline w) d
  | false with override, bool_decide (entry ∈ dom (header d)) := {
    | true, false => add_entries entry src function false [] w d
    | true, true => run (replace_column entry src function keywords) w d
    | false, _ with bool_decide (entry ∈ dom (_header d)) := {
      | false => run (create_column entry src function keywords) w d
      | true with inspect (input conflict_prompt (print (conflict_message entry) "" w)) := {
        | exist _ (None, w') _ => Raise EOFError w' d
        | exist _ (Some answer, w') _ =>
            if affirmative answer
            then add_entries entry src function true keywords w' d
            else Return (print "[i] ...aborting..." newline w') d
        }
      }
    }
  }.
Proof.
  all: try (simpl; lia).
  unfold input, print in e; simpl in e.
  destruct (stdin w) as [|line rest]; inversion e; subst; simpl; lia.
Qed.

(** ** tokenize (lines 317-364) *)

(** The class [Tokenizer] of [lingpy.sequence.tokenizer]: constructing it
    from an orthography profile may raise, and so may its method [tokenize],
    which returns a string. *)
Variable Tokenizer : string → res (pyval → res string).

(** Lines 355-358: the two lambdas.  Each takes exactly one positional
    argument and no keyword. *)
Definition tokenize_function (t : pyval → res string) (target : string) : callable :=
  if bool_decide (target = "tokens")
  then λ args kw,
    match args, kw with
    | [x], [] => s ← t x; mret (VList (VStr <$> str_split " " s))
    | _, _ => raise TypeError
    end
  else λ args kw,
    match args, kw with
    | [x], [] => s ← t x; mret (VStr s)
    | _, _ => raise TypeError
    end.

(** Lines 317-364.  An argument left out ([None] here) takes the default of
    the signature; [conversion] and the keywords are accepted and not
    used. *)
Definition tokenize (orthography_profile : option string) (src : option source)
    (target : option string) (conversion : option string) (keywords : kwargs)
    (w : console) (d : Dictionary) : outcome :=
  let orthography_profile := default "" orthography_profile in
  let src := default (SrcStr "head") src in
  let target := default "tokens" target in
  match Tokenizer orthography_profile with
  | inl e => Raise e w d
  | inr t => add_entries target src (tokenize_function t target) false [] w d
  end.

End AddEntries.

(** ** __init__ (lines 68-107) *)

(** [re.split(", ?", s)]: the string is cut at every comma, and a space that
    follows the comma goes with it. *)
Fixpoint re_split_comma (s : string) : list string :=
  match s with
  | EmptyString => [EmptyString]
  | String c s' =>
      if Ascii.eqb c "," then
        match s' with
        | String c' s'' =>
            if Ascii.eqb c' " " then EmptyString :: re_split_comma s''
            else EmptyString :: re_split_comma s'
        | EmptyString => EmptyString :: re_split_comma s'
        end
      else
        match re_split_comma s' with
        | [] => [String c EmptyString]
        | p :: ps => String c p :: ps
        end
  end.

(** [l[i]] on a list of strings. *)
Definition strs_getitem (l : list string) (i : Z) : res string :=
  k ← py_index l i;
  match l !! k with
  | Some v => inr v
  | None => raise IndexError
  end.

(** A value of the [_meta] dict of the parser: a string, or a list of
    strings when the file gives the key several times. *)
Inductive meta : Type :=
| MStr (s : string)
| MList (l : list string).

(** What [__init__] adds to the instance. *)
Record Metadata : Type := mkMetadata {
  doculect2iso : gmap string string;
  head_iso : list string;
  translation_iso : list string
}.

(** [d[k]] on the [_meta] dict. *)
Definition meta_get (m : gmap string meta) (k : string) : res meta :=
  match m !! k with
  | Some v => inr v
  | None => raise (KeyError (VStr k))
  end.

(** Lines 87-89: the loop over the doculect lines. *)
Fixpoint doculect_loop (lines : list string) (acc : gmap string string)
  : res (gmap string string) :=
  match lines with
  | [] => inr acc
  | doculect :: rest =>
      let doculect_entry := re_split_comma doculect in
      k ← strs_getitem doculect_entry 0;
      v ← strs_getitem doculect_entry 1;
      doculect_loop rest (<[k := v]> acc)
  end.

(** Lines 94-107, once for [head_iso] and once for [translation_iso]: a list
    is copied, anything else becomes the only element. *)
Definition iso_list (v : meta) : list string :=
  match v with
  | MList l => foldl (λ acc iso, acc ++ [iso]) [] l
  | MStr s => [s]
  end.

Section Init.

(** [s[i]] on a string, the character at a position. *)
Variable str_item : string → Z → res string.

(** Lines 83-107: the metadata that [__init__] derives from [_meta]. *)
Definition init_metadata (_meta : gmap string meta) : res Metadata :=
  v ← meta_get _meta "doculect";
  d2i ← match v with
         | MList l => doculect_loop l ∅
         | MStr doculect_entry =>
             k ← str_item doculect_entry 0;
             v ← str_item doculect_entry 1;
             mret (<[k := v]> ∅)
         end;
  h ← meta_get _meta "head_iso";
  t ← meta_get _meta "translation_iso";
  mret (mkMetadata d2i (iso_list h) (iso_list t)).

(** The input file or dict, the configuration path of [rcParams] and
    [os.path.join]. *)
Variable input_data : Type.
Variable rc_path : string.
Variable path_join : list string → string.

(** [_QLCParser.__init__]: it builds the instance and its [_meta], or
    raises. *)
Variable QLCParser_init : input_data → string → res (Dictionary * gmap string meta).

(** Lines 68-107.  The parameters [row] and [col] are accepted and not
    used. *)
Definition Dictionary_init (filename : input_data) (row col conf : string)
  : res (Dictionary * Metadata) :=
  let conf :=
    if bool_decide (conf = "") then path_join [rc_path; "data"; "conf"; "dictionary.rc"]
    else conf in
  p ← QLCParser_init filename conf;
  md ← init_metadata p.2;
  mret (p.1, md).

End Init.

(** A doculect line as the files have it: the name, a comma, a space and
    the ISO code. *)
Definition doculect_line (pair : string * string) : string :=
  pair.1 +:+ ", " +:+ pair.2.

(** ** Notions used to state the properties *)

(** A position that [r[i]] accepts. *)
Definition valid_index (r : row) (i : Z) : Prop :=
  - Z.of_nat (length r) ≤ i < Z.of_nat (length r).

(** Source resolution as the specification words it, once for both
    branches: a multi-column source resolves each name and hands the
    transform the row and the indices; a mapping hands it the value stored
    under the row key; a single column resolves one index and hands over
    the value there together with the keywords.  The result is the function
    from a row to its derived value. *)
Definition transform_of (h : gmap string Z) (src : source) (function : callable)
    (keywords : kwargs) : res (Z → row → res pyval) :=
  match src with
  | SrcStr s =>
      if str_contains "," s then
        idxs ← res_mapM (dict_get h) (str_split "," s);
        mret (λ (key : Z) (r : row), function [VList r; VList (VInt <$> idxs)] [])
      else
        idx ← dict_get h s;
        mret (λ (key : Z) (r : row), v ← py_getitem r idx; function [v] keywords)
  | SrcDict m =>
      mret (λ (key : Z) (r : row), v ← source_get m key; function [v] [])
  end.

(** The loop bodies of the two branches, given the derived value of a row:
    [append] in the create branch, item assignment in the override branch. *)
Definition append_with (g : Z → row → res pyval) : Z → row → res row :=
  λ key r, t ← g key r; mret (r ++ [t]).

Definition assign_with (g : Z → row → res pyval) (rIdx : Z) : Z → row → res row :=
  λ key r, t ← g key r; py_setitem r rIdx t.

(** The rows [rows'] are the rows [rows] with the value [g] derives appended
    to each. *)
Definition appended (g : Z → row → res pyval) (rows rows' : list (Z * row)) : Prop :=
  Forall2 (λ kr kr', kr'.1 = kr.1 ∧ ∃ t, g kr.1 kr.2 = inr t ∧ kr'.2 = kr.2 ++ [t])
    rows rows'.

(** The rows [rows'] are the rows [rows] with the value [g] derives assigned
    at index [rIdx] of each. *)
Definition assigned (g : Z → row → res pyval) (rIdx : Z)
    (rows rows' : list (Z * row)) : Prop :=
  Forall2
    (λ kr kr',
       kr'.1 = kr.1 ∧ ∃ t, g kr.1 kr.2 = inr t ∧ py_setitem kr.2 rIdx t = inr kr'.2)
    rows rows'.

(** The derived value of a row under a mapping source: the transform
    applied to the value the mapping holds for the row key. *)
Definition from_mapping (m : gmap Z pyval) (function : callable) : Z → row → res pyval :=
  λ key _, v ← source_get m key; function [v] [].

(** The instance [d] with its row store replaced. *)
Definition with_data (rows : list (Z * row)) (d : Dictionary) : Dictionary :=
  mkDictionary (_alias d) (_alias2 d) (header d) (_header d) (entries d) rows.

(** The instance [d] with its entries replaced. *)
Definition with_entries (es : list string) (d : Dictionary) : Dictionary :=
  mkDictionary (_alias d) (_alias2 d) (header d) (_header d) es (_data d).

(** The registry of [d'] is that of [d]: alias tables, both headers and the
    entries. *)
Definition same_registry (d d' : Dictionary) : Prop :=
  _alias d' = _alias d ∧ _alias2 d' = _alias2 d ∧ header d' = header d ∧
  _header d' = _header d ∧ entries d' = entries d.

(** Alias consistency: the aliases in the alias set of a registered canonical
    name are all bound in [_header], to one index. *)
Definition alias_consistent (d : Dictionary) : Prop :=
  ∀ name aliases a b,
    is_Some (header d !! name) → _alias2 d !! name = Some aliases →
    a ∈ aliases → b ∈ aliases →
    ∃ i, _header d !! a = Some i ∧ _header d !! b = Some i.

Section Aliases.

Variables lower upper : string → string.

(** The instance after lines 208-211 of a create for [entry]. *)
Definition aliased (entry : string) (d : Dictionary) : Dictionary :=
  (add_alias lower upper entry d).2.

(** The aliases that a create for [entry] binds are apart from the alias
    sets of the other registered names: none of them is in the alias set of
    a canonical name that is in [header] and is not the one being created. *)
Definition binds_apart (entry : string) (d : Dictionary) : Prop :=
  ∀ name aliases other others a,
    _alias (aliased entry d) !! lower entry = Some name →
    _alias2 (aliased entry d) !! name = Some aliases →
    is_Some (header d !! other) → other ≠ name →
    _alias2 d !! other = Some others →
    a ∈ aliases → a ∉ others.

(** The canonical name of a create for [entry] is in its own alias set, as
    it is in the default pair and in the alias sets the parser builds. *)
Definition canonical_in_set (entry : string) (d : Dictionary) : Prop :=
  ∀ name aliases,
    _alias (aliased entry d) !! lower entry = Some name →
    _alias2 (aliased entry d) !! name = Some aliases →
    name ∈ aliases.

End Aliases.

(** Row width: every row holds as many values as there are registered
    canonical columns. *)
Definition row_width (d : Dictionary) : Prop :=
  ∀ key r, (key, r) ∈ _data d → length r = size (header d).

(** Strictly increasing in the order of [String.compare]. *)
Definition increasing (l : list string) : Prop :=
  Sorted (λ x y, String.compare x y = Lt) l.

(** [c.join(l)] for a one-character separator. *)
Fixpoint str_join (c : ascii) (l : list string) : string :=
  match l with
  | [] => EmptyString
  | [s] => s
  | s :: l' => s +:+ String c (str_join c l')
  end.

(** A row as a call may leave it: the same key, and as many values as
    before or one more. *)
Definition row_step (kr kr' : Z * row) : Prop :=
  kr'.1 = kr.1 ∧
  (length kr'.2 = length kr.2 ∨ length kr'.2 = S (length kr.2)).

(** The registry of [d'] has every key that the registry of [d] has: the
    aliases, the alias sets, both headers and the entries. *)
Definition registry_grows (d d' : Dictionary) : Prop :=
  (∀ a, is_Some (_alias d !! a) → is_Some (_alias d' !! a)) ∧
  (∀ n, is_Some (_alias2 d !! n) → is_Some (_alias2 d' !! n)) ∧
  (∀ n, is_Some (header d !! n) → is_Some (header d' !! n)) ∧
  (∀ a, is_Some (_header d !! a) → is_Some (_header d' !! a)) ∧
  (∀ x, x ∈ entries d → x ∈ entries d').

(** Index uniqueness: two canonical names never share a column index. *)
Definition header_unique (d : Dictionary) : Prop :=
  ∀ n1 n2 i, header d !! n1 = Some i → header d !! n2 = Some i → n1 = n2.

(** No canonical index lies above every index bound in [_header]. *)
Definition header_bound (d : Dictionary) : Prop :=
  ∀ n j, header d !! n = Some j → ∃ a k, _header d !! a = Some k ∧ j ≤ k.

(** ** ASCII case mapping and sample instances *)

(** What [str.lower] and [str.upper] do on ASCII text: the 26 letters change
    case, every other byte stays. *)
Definition char_lower (c : ascii) : ascii :=
  let n := nat_of_ascii c in
  if ((65 <=? n) && (n <=? 90))%nat then ascii_of_nat (n + 32) else c.

Definition char_upper (c : ascii) : ascii :=
  let n := nat_of_ascii c in
  if ((97 <=? n) && (n <=? 122))%nat then ascii_of_nat (n - 32) else c.

Fixpoint str_map (f : ascii → ascii) (s : string) : string :=
  match s with
  | EmptyString => EmptyString
  | String c s' => String (f c) (str_map f s')
  end.

Definition lower_ascii : string → string := str_map char_lower.
Definition upper_ascii : string → string := str_map char_upper.

(** A dictionary as the parser leaves it for a file with the columns [head]
    and [translation] and two rows, under a configuration that declares no
    alias set. *)
Definition sample : Dictionary := {|
  _alias := list_to_map [("head", "head"); ("HEAD", "head");
                         ("translation", "translation"); ("TRANSLATION", "translation")];
  _alias2 := ∅;
  header := list_to_map [("head", 0); ("translation", 1)];
  _header := list_to_map [("head", 0); ("HEAD", 0); ("translation", 1); ("TRANSLATION", 1)];
  entries := ["head"; "translation"];
  _data := [(1, [VStr "casa"; VStr "house"]); (2, [VStr "perro"; VStr "dog"])]
|}.

(** A dictionary as the parser leaves it for the same file under a
    configuration that declares the column [ipa] with the aliases [IPA] and
    [phonetic]; the file has no such column. *)
Definition configured : Dictionary := {|
  _alias := list_to_map [("head", "head"); ("HEAD", "head");
                         ("translation", "translation"); ("TRANSLATION", "translation");
                         ("ipa", "ipa"); ("IPA", "ipa");
                         ("phonetic", "ipa"); ("PHONETIC", "ipa")];
  _alias2 := {["ipa" := ["IPA"; "phonetic"; "ipa"]]};
  header := list_to_map [("head", 0); ("translation", 1)];
  _header := list_to_map [("head", 0); ("HEAD", 0); ("translation", 1); ("TRANSLATION", 1)];
  entries := ["head"; "ipa"; "translation"];
  _data := [(1, [VStr "casa"; VStr "house"]); (2, [VStr "perro"; VStr "dog"])]
|}.

(** The sample dictionary after a create for [tokens]: the new name has
    the default alias set, bound to index 2. *)
Definition tokenized : Dictionary := {|
  _alias := list_to_map [("head", "head"); ("HEAD", "head");
                         ("translation", "translation"); ("TRANSLATION", "translation");
                         ("tokens", "tokens"); ("TOKENS", "tokens")];
  _alias2 := {["tokens" := ["tokens"; "TOKENS"]]};
  header := list_to_map [("head", 0); ("translation", 1); ("tokens", 2)];
  _header := list_to_map [("head", 0); ("HEAD", 0); ("translation", 1); ("TRANSLATION", 1);
                          ("tokens", 2); ("TOKENS", 2)];
  entries := ["head"; "tokens"; "translation"];
  _data := [(1, [VStr "casa"; VStr "house"; VStr "CASA"]);
            (2, [VStr "perro"; VStr "dog"; VStr "PERRO"])]
|}.

(** An interactive console with nothing typed yet. *)
Definition quiet : console := mkConsole [] [].

(** A transform on one string: upper case. *)
Definition shout : callable := λ args kw,
  match args with
  | [VStr s] => inr (VStr (upper_ascii s))
  | _ => raise TypeError
  end.

(** A transform with an optional keyword, [lambda s, suffix='': s + suffix]. *)
Definition with_suffix : callable := λ args kw,
  match args, kw with
  | [VStr s], [] => inr (VStr s)
  | [VStr s], [(k, VStr x)] =>
      if String.eqb k "suffix" then inr (VStr (s +:+ x)) else raise TypeError
  | _, _ => raise TypeError
  end.

(** A tokenizer that separates the bytes of a string by spaces, as a profile
    of single-letter graphemes does on ASCII text; it takes strings only. *)
Fixpoint spaced (s : string) : string :=
  match s with
  | EmptyString => EmptyString
  | String c EmptyString => String c EmptyString
  | String c s' => String c (String " " (spaced s'))
  end.

Definition letter_tokenizer : string → res (pyval → res string) := λ _,
  inr (λ x, match x with
            | VStr s => inr (spaced s)
            | _ => raise TypeError
            end).

(** * Properties *)

(** ** List indexing and traversals *)

Lemma py_index_valid {A} (l : list A) (i : Z) :
  - Z.of_nat (length l) ≤ i < Z.of_nat (length l) →
  ∃ k : nat, py_index l i = inr k ∧ (k < length l)%nat.
Proof.
  intros Hi. unfold py_index.
  destruct (decide (0 ≤ i < Z.of_nat (length l))) as [H0|H0].
  - exists (Z.to_nat i). split; [reflexivity | lia].
  - destruct (decide (- Z.of_nat (length l) ≤ i < 0)) as [H1|H1].
    + exists (Z.to_nat (Z.of_nat (length l) + i)). split; [reflexivity | lia].
    + lia.
Qed.

Lemma py_index_inr {A} (l : list A) (i : Z) (k : nat) :
  py_index l i = inr k →
  - Z.of_nat (length l) ≤ i < Z.of_nat (length l) ∧ (k < length l)%nat.
Proof.
  unfold py_index.
  destruct (decide (0 ≤ i < Z.of_nat (length l))) as [H0|H0].
  - intros [= <-]. lia.
  - destruct (decide (- Z.of_nat (length l) ≤ i < 0)) as [H1|H1].
    + intros [= <-]. lia.
    + discriminate.
Qed.

Lemma py_getitem_valid (r : row) (i : Z) :
  valid_index r i → ∃ v, py_getitem r i = inr v.
Proof.
  intros Hi. destruct (py_index_valid r i Hi) as (k & Hk & Hlt).
  unfold py_getitem. rewrite Hk. simpl.
  destruct (lookup_lt_is_Some_2 r k Hlt) as [v Hv].
  exists v. by rewrite Hv.
Qed.

Lemma py_getitem_inr (r : row) (i : Z) (v : pyval) :
  py_getitem r i = inr v → valid_index r i.
Proof.
  unfold py_getitem. destruct (py_index r i) as [e|k] eqn:Hk; [discriminate|].
  intros _. by apply py_index_inr in Hk as [? _].
Qed.

Lemma py_setitem_valid (r : row) (i : Z) (v : pyval) :
  valid_index r i → ∃ r', py_setitem r i v = inr r' ∧ length r' = length r.
Proof.
  intros Hi. destruct (py_index_valid r i Hi) as (k & Hk & Hlt).
  unfold py_setitem. rewrite Hk. simpl. eexists. split; [reflexivity|].
  apply length_insert.
Qed.

Lemma py_setitem_length (r r' : row) (i : Z) (v : pyval) :
  py_setitem r i v = inr r' → length r' = length r.
Proof.
  unfold py_setitem. destruct (py_index r i) as [e|k]; [discriminate|].
  simpl. intros [= <-]. apply length_insert.
Qed.

Lemma res_mapM_inr {A B} (f : A → res B) (l : list A) (l' : list B) :
  res_mapM f l = inr l' ↔ Forall2 (λ x y, f x = inr y) l l'.
Proof.
  revert l'. induction l as [|x l IH]; intros l'; simpl.
  - split.
    + intros [= <-]. constructor.
    + intros H. inversion H. reflexivity.
  - split.
    + destruct (f x) as [e|y] eqn:Hx; [discriminate|].
      destruct (res_mapM f l) as [e|ys] eqn:Hl; [discriminate|].
      intros [= <-]. constructor; [exact Hx | by apply IH].
    + intros H. inversion H as [|? y ? ys Hx Hys]; subst.
      rewrite Hx. apply IH in Hys. by rewrite Hys.
Qed.

Lemma res_mapM_total {A B} (f : A → res B) (l : list A) :
  (∀ x, x ∈ l → ∃ y, f x = inr y) → ∃ l', res_mapM f l = inr l'.
Proof.
  induction l as [|x l IH]; intros H; simpl.
  - by eexists.
  - destruct (H x) as [y Hy]; [left|]. rewrite Hy.
    destruct IH as [l' Hl']; [intros z Hz; apply H; by right|].
    rewrite Hl'. by eexists.
Qed.

(** ** get_tuples *)

Lemma get_tuples_one (d : Dictionary) (c : string) (i : Z) :
  _header d !! c = Some i →
  get_tuples [c] d = res_mapM (λ kr, py_getitem kr.2 i) (_data d).
Proof. intros H. unfold get_tuples, get_idxs. simpl. by rewrite H. Qed.

Lemma get_tuples_two (d : Dictionary) (c1 c2 : string) (i j : Z) :
  _header d !! c1 = Some i → _header d !! c2 = Some j →
  get_tuples [c1; c2] d = res_mapM (λ kr, itemgetter [i; j] kr.2) (_data d).
Proof. intros H1 H2. unfold get_tuples, get_idxs. simpl. by rewrite H1, H2. Qed.

Lemma project_pairs (rows : list (Z * row)) (i j : Z) :
  (∀ key r, (key, r) ∈ rows → valid_index r i ∧ valid_index r j) →
  ∃ hs ts,
    res_mapM (λ kr, py_getitem kr.2 i) rows = inr hs ∧
    res_mapM (λ kr, py_getitem kr.2 j) rows = inr ts ∧
    res_mapM (λ kr, itemgetter [i; j] kr.2) rows
      = inr (zip_with (λ h t, VTuple [h; t]) hs ts).
Proof.
  induction rows as [|[key r] rows IH]; intros Hv.
  - exists [], []. by simpl.
  - destruct (Hv key r) as [Hi Hj]; [left|].
    destruct (py_getitem_valid r i Hi) as [h Hh].
    destruct (py_getitem_valid r j Hj) as [t Ht].
    destruct IH as (hs & ts & Hhs & Hts & Hps).
    { intros k' r' Hin. apply (Hv k' r'). by right. }
    exists (h :: hs), (t :: ts). simpl.
    rewrite Hh, Ht, Hhs, Hts. unfold itemgetter at 1. simpl.
    rewrite Hh, Ht. simpl. by rewrite Hps.
Qed.

(** C8.  With [head] and [translation] registered and present in every row,
    [get_tuples ["head"]] returns one value per row, in the order of the
    row store, and [get_tuples ["head"; "translation"]] returns at every
    position the 2-tuple of the values the two single-column projections
    hold at that position. *)
Theorem get_tuples_alignment (d : Dictionary) (i j : Z) :
  _header d !! "head" = Some i →
  _header d !! "translation" = Some j →
  (∀ key r, (key, r) ∈ _data d → valid_index r i ∧ valid_index r j) →
  ∃ hs ts pairs,
    get_tuples ["head"] d = inr hs ∧
    get_tuples ["translation"] d = inr ts ∧
    get_tuples ["head"; "translation"] d = inr pairs ∧
    Forall2 (λ kr h, py_getitem kr.2 i = inr h) (_data d) hs ∧
    Forall2 (λ kr t, py_getitem kr.2 j = inr t) (_data d) ts ∧
    length pairs = length (_data d) ∧
    ∀ (p : nat) v, pairs !! p = Some v →
      ∃ h t, hs !! p = Some h ∧ ts !! p = Some t ∧ v = VTuple [h; t].
Proof.
  intros Hh Ht Hv.
  destruct (project_pairs (_data d) i j Hv) as (hs & ts & Hhs & Hts & Hps).
  exists hs, ts, (zip_with (λ h t, VTuple [h; t]) hs ts).
  rewrite (get_tuples_one d "head" i Hh), (get_tuples_one d "translation" j Ht).
  rewrite (get_tuples_two d "head" "translation" i j Hh Ht).
  apply res_mapM_inr in Hhs as Hhs'. apply res_mapM_inr in Hts as Hts'.
  repeat split; try assumption.
  - rewrite length_zip_with.
    apply Forall2_length in Hhs', Hts'.
    rewrite <- Hhs', <- Hts'. apply Nat.min_id.
  - intros p v Hp. apply lookup_zip_with_Some in Hp as (h & t & -> & H1 & H2).
    by exists h, t.
Qed.

(** C10.  When exactly one of the requested names is in the header, the
    result is the list of the bare values of that column, the same as when
    that column alone is requested, whatever else was requested; when none
    is, the result is the empty list and nothing is raised. *)
Theorem get_tuples_one_present (d : Dictionary) (columns : list string) :
  (∀ c i,
      filter (λ c, is_Some (_header d !! c)) columns = [c] →
      _header d !! c = Some i →
      get_tuples columns d = res_mapM (λ kr, py_getitem kr.2 i) (_data d) ∧
      get_tuples columns d = get_tuples [c] d) ∧
  (filter (λ c, is_Some (_header d !! c)) columns = [] →
   get_tuples columns d = inr []).
Proof.
  assert (Hidx : get_idxs columns d
            = omap (λ c, _header d !! c) (filter (λ c, is_Some (_header d !! c)) columns)).
  { unfold get_idxs. induction columns as [|c cs IH]; [reflexivity|].
    rewrite filter_cons. simpl.
    destruct (_header d !! c) as [i|] eqn:Hc.
    - rewrite decide_True by (by eexists). simpl. rewrite Hc. by f_equal.
    - rewrite decide_False by (by intros [? ?]). exact IH. }
  split.
  - intros c i Hf Hc.
    assert (Hone : get_tuples columns d
              = res_mapM (λ kr, py_getitem kr.2 i) (_data d)).
    { unfold get_tuples. rewrite Hidx, Hf. simpl. by rewrite Hc. }
    split; [exact Hone|]. by rewrite Hone, (get_tuples_one d c i Hc).
  - intros Hf. unfold get_tuples. by rewrite Hidx, Hf.
Qed.

(** ** The row loop *)

Lemma for_rows_ext (body body' : Z → row → res row) (items : list (Z * row)) :
  (∀ key r, body key r = body' key r) → for_rows body items = for_rows body' items.
Proof.
  intros H. induction items as [|[key r] items IH]; simpl; [reflexivity|].
  by rewrite H, IH.
Qed.

Lemma for_rows_return (body : Z → row → res row) (items items' : list (Z * row)) :
  Forall2 (λ kr kr', kr'.1 = kr.1 ∧ body kr.1 kr.2 = inr kr'.2) items items' →
  for_rows body items = (None, items').
Proof.
  induction 1 as [|[k r] [k' r'] items items' [Hk Hb] _ IH]; simpl in *; [reflexivity|].
  subst k'. by rewrite Hb, IH.
Qed.

Lemma for_rows_raise (body : Z → row → res row) (pre pre' post : list (Z * row))
    (key : Z) (r : row) (e : exn) :
  Forall2 (λ kr kr', kr'.1 = kr.1 ∧ body kr.1 kr.2 = inr kr'.2) pre pre' →
  body key r = inl e →
  for_rows body (pre ++ (key, r) :: post) = (Some e, pre' ++ (key, r) :: post).
Proof.
  intros Hpre He.
  induction Hpre as [|[k0 r0] [k0' r0'] pre pre' [Hk Hb] _ IH]; simpl in *.
  - by rewrite He.
  - subst k0'. by rewrite Hb, IH.
Qed.

Lemma for_rows_None (body : Z → row → res row) (items items' : list (Z * row)) :
  for_rows body items = (None, items') →
  Forall2 (λ kr kr', kr'.1 = kr.1 ∧ body kr.1 kr.2 = inr kr'.2) items items'.
Proof.
  revert items'. induction items as [|[key r] items IH]; intros items'; simpl.
  - intros [= <-]. constructor.
  - destruct (body key r) as [e|r'] eqn:Hb; [discriminate|].
    destruct (for_rows body items) as [o rest'] eqn:Hrest.
    intros [= -> <-]. constructor; [by split | by apply IH].
Qed.

(** Whatever the loop does, each row it leaves is the old row or the row
    the body computed for it: keys and their order stay. *)
Lemma for_rows_keys (body : Z → row → res row) (items : list (Z * row)) :
  (for_rows body items).2.*1 = items.*1.
Proof.
  induction items as [|[key r] items IH]; simpl; [reflexivity|].
  destruct (body key r) as [e|r']; simpl; [reflexivity|].
  destruct (for_rows body items) as [o rest']. simpl in *. by f_equal.
Qed.

Lemma for_key_in_self_return (body : Z → row → res row) (d : Dictionary)
    (rows' : list (Z * row)) :
  Forall2 (λ kr kr', kr'.1 = kr.1 ∧ body kr.1 kr.2 = inr kr'.2) (_data d) rows' →
  for_key_in_self body d = (inr (), with_data rows' d).
Proof.
  intros H. unfold for_key_in_self. by rewrite (for_rows_return _ _ _ H).
Qed.

Lemma for_key_in_self_frame (body : Z → row → res row) (d : Dictionary) :
  same_registry d (for_key_in_self body d).2 ∧
  (_data (for_key_in_self body d).2).*1 = (_data d).*1.
Proof.
  unfold for_key_in_self.
  pose proof (for_rows_keys body (_data d)) as Hk.
  destruct (for_rows body (_data d)) as [[e|] items]; simpl in *;
    by repeat split.
Qed.

Lemma for_key_in_self_inr (body : Z → row → res row) (d d' : Dictionary) (u : unit) :
  for_key_in_self body d = (inr u, d') →
  d' = with_data (_data d') d ∧
  Forall2 (λ kr kr', kr'.1 = kr.1 ∧ body kr.1 kr.2 = inr kr'.2) (_data d) (_data d').
Proof.
  unfold for_key_in_self.
  destruct (for_rows body (_data d)) as [[e|] items] eqn:Hf; [discriminate|].
  destruct u. intros [= <-]. split; [reflexivity|]. simpl. by apply for_rows_None.
Qed.

Section Branches.

Variables lower upper : string → string.

(** ** Source resolution is the same in both branches *)

Lemma create_rows_spec (src : source) (function : callable) (keywords : kwargs)
    (d : Dictionary) :
  create_rows src function keywords d =
  match transform_of (_header d) src function keywords with
  | inl e => (inl e, d)
  | inr g => for_key_in_self (append_with g) d
  end.
Proof.
  unfold create_rows, transform_of, has_comma.
  destruct src as [s|m]; [destruct (str_contains "," s)|]; simpl.
  - unfold mbind, M_bind, get, lift. simpl.
    destruct (res_mapM (dict_get (_header d)) (str_split "," s)); reflexivity.
  - unfold mbind, M_bind, get, lift. simpl.
    destruct (dict_get (_header d) s) as [e|idx]; simpl; [reflexivity|].
    unfold for_key_in_self.
    erewrite for_rows_ext; [reflexivity|].
    intros key r. unfold append_with. simpl.
    by destruct (py_getitem r idx).
  - unfold for_key_in_self.
    erewrite for_rows_ext; [reflexivity|].
    intros key r. unfold append_with. simpl.
    by destruct (source_get m key).
Qed.

Lemma replace_column_spec (entry : string) (src : source) (function : callable)
    (keywords : kwargs) (d : Dictionary) :
  replace_column lower entry src function keywords d =
  match dict_get (_header d) (lower entry) with
  | inl e => (inl e, d)
  | inr rIdx =>
      match transform_of (_header d) src function keywords with
      | inl e => (inl e, d)
      | inr g => for_key_in_self (assign_with g rIdx) d
      end
  end.
Proof.
  unfold replace_column, transform_of, has_comma.
  unfold mbind at 1 2. unfold M_bind at 1 2. unfold get at 1. unfold lift at 1. simpl.
  destruct (dict_get (_header d) (lower entry)) as [e|rIdx]; [reflexivity|].
  destruct src as [s|m]; [destruct (str_contains "," s)|]; simpl.
  - unfold mbind, M_bind, get, lift. simpl.
    destruct (res_mapM (dict_get (_header d)) (str_split "," s)); reflexivity.
  - unfold mbind, M_bind, get, lift. simpl.
    destruct (dict_get (_header d) s) as [e|idx]; simpl; [reflexivity|].
    unfold for_key_in_self.
    erewrite for_rows_ext; [reflexivity|].
    intros key r. unfold assign_with. simpl.
    by destruct (py_getitem r idx).
  - unfold for_key_in_self.
    erewrite for_rows_ext; [reflexivity|].
    intros key r. unfold assign_with. simpl.
    by destruct (source_get m key).
Qed.

(** ** The four branches of add_entries *)

Lemma add_entries_empty (src : source) (function : callable) (override : bool)
    (keywords : kwargs) (w : console) (d : Dictionary) :
  add_entries lower upper "" src function override keywords w d =
  Return (print "[i] Entry was not properly specified!" newline w) d.
Proof. by simp add_entries. Qed.

Lemma add_entries_retry (entry : string) (src : source) (function : callable)
    (keywords : kwargs) (w : console) (d : Dictionary) :
  entry ≠ "" → header d !! entry = None →
  add_entries lower upper entry src function true keywords w d =
  add_entries lower upper entry src function false [] w d.
Proof.
  intros He Hh. rewrite (add_entries_equation_1 _ _ entry src function true).
  rewrite bool_decide_eq_false_2 by done. simpl.
  rewrite bool_decide_eq_false_2; [reflexivity|].
  rewrite elem_of_dom, Hh. by intros [? ?].
Qed.

Lemma add_entries_replace (entry : string) (src : source) (function : callable)
    (keywords : kwargs) (w : console) (d : Dictionary) :
  entry ≠ "" → is_Some (header d !! entry) →
  add_entries lower upper entry src function true keywords w d =
  run (replace_column lower entry src function keywords) w d.
Proof.
  intros He Hh. rewrite (add_entries_equation_1 _ _ entry src function true).
  rewrite bool_decide_eq_false_2 by done. simpl.
  rewrite bool_decide_eq_true_2; [reflexivity|]. by apply elem_of_dom.
Qed.

Lemma add_entries_create (entry : string) (src : source) (function : callable)
    (keywords : kwargs) (w : console) (d : Dictionary) :
  entry ≠ "" → _header d !! entry = None →
  add_entries lower upper entry src function false keywords w d =
  run (create_column lower upper entry src function keywords) w d.
Proof.
  intros He Hh. rewrite (add_entries_equation_1 _ _ entry src function false).
  rewrite bool_decide_eq_false_2 by done. simpl.
  rewrite bool_decide_eq_false_2; [reflexivity|].
  rewrite elem_of_dom, Hh. by intros [? ?].
Qed.

Lemma add_entries_conflict (entry : string) (src : source) (function : callable)
    (keywords : kwargs) (w : console) (d : Dictionary) :
  entry ≠ "" → is_Some (_header d !! entry) →
  add_entries lower upper entry src function false keywords w d =
  match input conflict_prompt (print (conflict_message entry) "" w) with
  | (None, w') => Raise EOFError w' d
  | (Some answer, w') =>
      if affirmative lower answer
      then add_entries lower upper entry src function true keywords w' d
      else Return (print "[i] ...aborting..." newline w') d
  end.
Proof.
  intros He Hh. rewrite (add_entries_equation_1 _ _ entry src function false).
  rewrite bool_decide_eq_false_2 by done. simpl.
  rewrite (bool_decide_eq_true_2 (entry ∈ dom (_header d))) by (by apply elem_of_dom).
  simpl.
  by destruct (input conflict_prompt (print (conflict_message entry) "" w))
    as [[answer|] w'].
Qed.


End Branches.

(** ** The override branch *)

Lemma dict_get_inr {V} (m : gmap string V) (k : string) (v : V) :
  dict_get m k = inr v ↔ m !! k = Some v.
Proof.
  unfold dict_get, raise. destruct (m !! k) as [v'|]; split; intros H;
    first [discriminate H | injection H as ->; reflexivity].
Qed.

Lemma assign_with_inr (g : Z → row → res pyval) (rIdx key : Z) (r r' : row) :
  assign_with g rIdx key r = inr r' ↔
  ∃ t, g key r = inr t ∧ py_setitem r rIdx t = inr r'.
Proof.
  unfold assign_with. destruct (g key r) as [e|t]; simpl; split.
  - discriminate.
  - by intros (t & ? & _).
  - intros H. by exists t.
  - by intros (t' & [= <-] & H).
Qed.

Lemma append_with_inr (g : Z → row → res pyval) (key : Z) (r r' : row) :
  append_with g key r = inr r' ↔ ∃ t, g key r = inr t ∧ r' = r ++ [t].
Proof.
  unfold append_with. destruct (g key r) as [e|t]; simpl; split.
  - discriminate.
  - by intros (t & ? & _).
  - intros [= <-]. by exists t.
  - by intros (t' & [= <-] & ->).
Qed.

Lemma assigned_body (g : Z → row → res pyval) (rIdx : Z) (rows rows' : list (Z * row)) :
  assigned g rIdx rows rows' ↔
  Forall2 (λ kr kr', kr'.1 = kr.1 ∧ assign_with g rIdx kr.1 kr.2 = inr kr'.2) rows rows'.
Proof.
  unfold assigned. split; intros HF; (eapply Forall2_impl; [exact HF|]);
    intros kr kr' [Hk H]; (split; [exact Hk|]); by apply assign_with_inr.
Qed.

Lemma appended_body (g : Z → row → res pyval) (rows rows' : list (Z * row)) :
  appended g rows rows' ↔
  Forall2 (λ kr kr', kr'.1 = kr.1 ∧ append_with g kr.1 kr.2 = inr kr'.2) rows rows'.
Proof.
  unfold appended. split; intros HF; (eapply Forall2_impl; [exact HF|]);
    intros kr kr' [Hk H]; (split; [exact Hk|]); by apply append_with_inr.
Qed.

Section Override.

Variables lower upper : string → string.

Lemma replace_column_frame (entry : string) (src : source) (function : callable)
    (keywords : kwargs) (d : Dictionary) :
  same_registry d (replace_column lower entry src function keywords d).2 ∧
  (_data (replace_column lower entry src function keywords d).2).*1 = (_data d).*1.
Proof.
  rewrite replace_column_spec.
  destruct (dict_get (_header d) (lower entry)) as [e|rIdx]; [by repeat split|].
  destruct (transform_of (_header d) src function keywords) as [e|g];
    [by repeat split|].
  apply for_key_in_self_frame.
Qed.

Lemma replace_column_return (entry : string) (src : source) (function : callable)
    (keywords : kwargs) (d : Dictionary) (rIdx : Z) (g : Z → row → res pyval)
    (rows' : list (Z * row)) :
  _header d !! lower entry = Some rIdx →
  transform_of (_header d) src function keywords = inr g →
  assigned g rIdx (_data d) rows' →
  replace_column lower entry src function keywords d = (inr (), with_data rows' d).
Proof.
  intros Hr Hg Hrows. rewrite replace_column_spec.
  apply dict_get_inr in Hr. rewrite Hr, Hg.
  apply for_key_in_self_return. by apply assigned_body.
Qed.

Lemma replace_column_inr (entry : string) (src : source) (function : callable)
    (keywords : kwargs) (d d' : Dictionary) (u : unit) :
  replace_column lower entry src function keywords d = (inr u, d') →
  ∃ rIdx g,
    _header d !! lower entry = Some rIdx ∧
    transform_of (_header d) src function keywords = inr g ∧
    assigned g rIdx (_data d) (_data d') ∧ d' = with_data (_data d') d.
Proof.
  rewrite replace_column_spec.
  destruct (dict_get (_header d) (lower entry)) as [e|rIdx] eqn:Hr; [discriminate|].
  destruct (transform_of (_header d) src function keywords) as [e|g] eqn:Hg;
    [discriminate|].
  intros H. apply for_key_in_self_inr in H as [Hd H].
  exists rIdx, g. apply dict_get_inr in Hr. repeat split; try assumption.
  by apply assigned_body.
Qed.

Lemma add_entries_override_return (entry : string) (src : source)
    (function : callable) (keywords : kwargs) (w : console) (d : Dictionary)
    (rIdx : Z) (g : Z → row → res pyval) (rows' : list (Z * row)) :
  entry ≠ "" → is_Some (header d !! entry) →
  _header d !! lower entry = Some rIdx →
  transform_of (_header d) src function keywords = inr g →
  assigned g rIdx (_data d) rows' →
  add_entries lower upper entry src function true keywords w d
  = Return w (with_data rows' d).
Proof.
  intros He Hh Hr Hg Hrows.
  rewrite (add_entries_replace _ _ _ _ _ _ _ _ He Hh). unfold run.
  by rewrite (replace_column_return _ _ _ _ _ _ _ _ Hr Hg Hrows).
Qed.

(** C5.  An override of a name in [header] leaves the alias tables, both
    headers and the entries as they were, whether it returns or raises, does
    not touch the console and keeps the row keys; it resolves the index under
    the lower-cased name in [_header], and it returns exactly when every row
    has a derived value that can be assigned at that index, leaving every
    row with that value there. *)
Theorem override_frame (entry : string) (src : source) (function : callable)
    (keywords : kwargs) (w : console) (d : Dictionary) :
  entry ≠ "" → is_Some (header d !! entry) →
  let o := add_entries lower upper entry src function true keywords w d in
  same_registry d (final_dict o) ∧
  final_console o = w ∧
  (_data (final_dict o)).*1 = (_data d).*1 ∧
  (∀ rIdx g rows',
      _header d !! lower entry = Some rIdx →
      transform_of (_header d) src function keywords = inr g →
      assigned g rIdx (_data d) rows' →
      o = Return w (with_data rows' d)) ∧
  (∀ w' d', o = Return w' d' →
      ∃ rIdx g,
        _header d !! lower entry = Some rIdx ∧
        transform_of (_header d) src function keywords = inr g ∧
        assigned g rIdx (_data d) (_data d')).
Proof.
  intros He Hh o. subst o. rewrite (add_entries_replace _ _ _ _ _ _ _ _ He Hh).
  unfold run.
  pose proof (replace_column_frame entry src function keywords d) as [Hreg Hkeys].
  destruct (replace_column lower entry src function keywords d) as [[e|u] d1] eqn:Hrep;
    simpl in *.
  - repeat split; try apply Hreg; try assumption.
    + intros rIdx g rows' Hr Hg Hrows.
      rewrite (replace_column_return _ _ _ _ _ _ _ _ Hr Hg Hrows) in Hrep.
      discriminate.
    + discriminate.
  - repeat split; try apply Hreg; try assumption.
    + intros rIdx g rows' Hr Hg Hrows.
      rewrite (replace_column_return _ _ _ _ _ _ _ _ Hr Hg Hrows) in Hrep.
      congruence.
    + intros w' d' [= <- <-].
      apply replace_column_inr in Hrep as (rIdx & g & ? & ? & ? & _).
      by exists rIdx, g.
Qed.

End Override.

(** C5 on the sample dictionary: an override of [head] from [translation]. *)
Lemma override_frame_witness :
  add_entries lower_ascii upper_ascii "head" (SrcStr "translation") shout true [] quiet sample
  = Return quiet
      (with_data [(1, [VStr "HOUSE"; VStr "house"]); (2, [VStr "DOG"; VStr "dog"])]
         sample).
Proof.
  assert (He : "head" ≠ "") by discriminate.
  assert (Hh : is_Some (header sample !! "head")) by (by exists 0).
  destruct (override_frame lower_ascii upper_ascii "head" (SrcStr "translation") shout []
              quiet sample He Hh) as (_ & _ & _ & Hret & _).
  eapply (Hret 0); [reflexivity | reflexivity |].
  repeat constructor; simpl; eexists; split; reflexivity.
Defined.

(** ** The conflict branch *)

Section Conflict.

Variables lower upper : string → string.

(** C4, as the code has it.  A non-override call for a name in [_header]
    raises no error of its own: it writes the message and the prompt and
    reads one line of standard input.  With no line left it raises
    [EOFError]; with an answer that is not [y], [yes] or [j] after
    lower-casing it returns; in both cases the instance is untouched.  With
    an affirmative answer it continues as the override call.  An override
    call for a name in [header] whose rows all have a derived value that can
    be assigned returns, and neither header changes. *)
Theorem conflict_prompts (entry : string) (src : source) (function : callable)
    (keywords : kwargs) (w : console) (d : Dictionary) :
  entry ≠ "" → is_Some (_header d !! entry) →
  let asked := (input conflict_prompt (print (conflict_message entry) "" w)).2 in
  let o := add_entries lower upper entry src function false keywords w d in
  stdin asked = tail (stdin w) ∧
  stdout asked = stdout w ++ [conflict_message entry +:+ ""; conflict_prompt] ∧
  (stdin w = [] → o = Raise EOFError asked d) ∧
  (∀ answer rest, stdin w = answer :: rest → affirmative lower answer = false →
      o = Return (print "[i] ...aborting..." newline asked) d) ∧
  (∀ answer rest, stdin w = answer :: rest → affirmative lower answer = true →
      o = add_entries lower upper entry src function true keywords asked d) ∧
  (∀ w2 rIdx g rows',
      is_Some (header d !! entry) →
      _header d !! lower entry = Some rIdx →
      transform_of (_header d) src function keywords = inr g →
      assigned g rIdx (_data d) rows' →
      ∃ d', add_entries lower upper entry src function true keywords w2 d = Return w2 d' ∧
            _data d' = rows' ∧ header d' = header d ∧ _header d' = _header d).
Proof.
  intros He Hh asked o. subst asked o.
  rewrite (add_entries_conflict _ _ _ _ _ _ _ _ He Hh).
  unfold input, print. simpl.
  repeat split.
  - by destruct (stdin w).
  - destruct (stdin w); simpl; by rewrite <- app_assoc.
  - by intros ->.
  - intros answer rest -> Ha. simpl. by rewrite Ha.
  - intros answer rest -> Ha. simpl. by rewrite Ha.
  - intros w2 rIdx g rows' Hreg Hr Hg Hrows.
    exists (with_data rows' d).
    by rewrite (add_entries_override_return lower upper _ _ _ _ w2 _ _ _ _
                  He Hreg Hr Hg Hrows).
Qed.

End Conflict.

(** C4 on the sample dictionary: the answer [n] at the prompt. *)
Lemma conflict_prompts_witness :
  add_entries lower_ascii upper_ascii "head" (SrcStr "translation") shout false []
    (mkConsole ["n"] []) sample
  = Return
      (mkConsole []
         ["[?] Datatype <head> has already been produced, ";
          "do you want to override? (y/n) ";
          "[i] ...aborting..." +:+ newline])
      sample.
Proof.
  assert (He : "head" ≠ "") by discriminate.
  assert (Hh : is_Some (_header sample !! "head")) by (by exists 0).
  destruct (conflict_prompts lower_ascii upper_ascii "head" (SrcStr "translation") shout []
              (mkConsole ["n"] []) sample He Hh) as (_ & _ & _ & Hno & _).
  exact (Hno "n" [] eq_refl eq_refl).
Defined.

(** C4, as the specification states it, fails on the sample dictionary: the
    non-override call for the registered name [head] does not raise, it
    reads the line that standard input holds and returns; and when that line
    is [y] the rows have been rewritten. *)
Lemma conflict_reads_and_returns :
  _header sample !! "head" = Some 0 ∧
  (∃ w',
      add_entries lower_ascii upper_ascii "head" (SrcStr "translation") shout false []
        (mkConsole ["n"] []) sample = Return w' sample ∧
      stdin w' = []) ∧
  (∃ w' d',
      add_entries lower_ascii upper_ascii "head" (SrcStr "translation") shout false []
        (mkConsole ["y"] []) sample = Return w' d' ∧
      _data d' = [(1, [VStr "HOUSE"; VStr "house"]); (2, [VStr "DOG"; VStr "dog"])]).
Proof.
  split; [reflexivity|]. split.
  - eexists. split; [vm_compute; reflexivity | reflexivity].
  - eexists _, _. split; [vm_compute; reflexivity | reflexivity].
Qed.

(** ** An override of an unknown name *)

(** C6 at a failing input.  [tokens] is not a column of the sample
    dictionary and the transform takes a keyword.  Called without override
    the keyword reaches the transform; called with override the call is
    retried without the keywords (line 189), the transform runs with its
    default, and the two calls leave different rows. *)
Theorem override_unknown_drops_keywords :
  header sample !! "tokens" = None ∧
  (∃ d1,
      add_entries lower_ascii upper_ascii "tokens" (SrcStr "head") with_suffix false
        [("suffix", VStr "!")] quiet sample = Return quiet d1 ∧
      _data d1 = [(1, [VStr "casa"; VStr "house"; VStr "casa!"]);
                  (2, [VStr "perro"; VStr "dog"; VStr "perro!"])]) ∧
  (∃ d2,
      add_entries lower_ascii upper_ascii "tokens" (SrcStr "head") with_suffix true
        [("suffix", VStr "!")] quiet sample = Return quiet d2 ∧
      _data d2 = [(1, [VStr "casa"; VStr "house"; VStr "casa"]);
                  (2, [VStr "perro"; VStr "dog"; VStr "perro"])]) ∧
  add_entries lower_ascii upper_ascii "tokens" (SrcStr "head") with_suffix true
    [("suffix", VStr "!")] quiet sample
  ≠ add_entries lower_ascii upper_ascii "tokens" (SrcStr "head") with_suffix false
      [("suffix", VStr "!")] quiet sample.
Proof.
  split; [reflexivity|]. split; [|split].
  - eexists. split; [vm_compute; reflexivity | reflexivity].
  - eexists. split; [vm_compute; reflexivity | reflexivity].
  - vm_compute. intros H. discriminate H.
Qed.

(** ** Witnesses for the projections *)

(** C8 on the sample dictionary. *)
Lemma get_tuples_alignment_witness :
  ∃ hs ts pairs,
    get_tuples ["head"] sample = inr hs ∧
    get_tuples ["translation"] sample = inr ts ∧
    get_tuples ["head"; "translation"] sample = inr pairs ∧
    Forall2 (λ kr h, py_getitem kr.2 0 = inr h) (_data sample) hs ∧
    Forall2 (λ kr t, py_getitem kr.2 1 = inr t) (_data sample) ts ∧
    length pairs = length (_data sample) ∧
    ∀ (p : nat) v, pairs !! p = Some v →
      ∃ h t, hs !! p = Some h ∧ ts !! p = Some t ∧ v = VTuple [h; t].
Proof.
  apply (get_tuples_alignment sample 0 1); [reflexivity | reflexivity |].
  intros key r Hin. unfold valid_index.
  apply list_elem_of_In in Hin. simpl in Hin.
  destruct Hin as [[= <- <-]|[[= <- <-]|[]]]; simpl; lia.
Defined.

(** C10 on the sample dictionary: one of three names is a column, and none
    of two. *)
Lemma get_tuples_one_present_witness :
  get_tuples ["tokens"; "translation"; "ipa"] sample = inr [VStr "house"; VStr "dog"] ∧
  get_tuples ["tokens"; "ipa"] sample = inr [].
Proof.
  destruct (get_tuples_one_present sample ["tokens"; "translation"; "ipa"]) as [Hone _].
  destruct (get_tuples_one_present sample ["tokens"; "ipa"]) as [_ Hnone].
  split.
  - destruct (Hone "translation" 1) as [H _]; [reflexivity | reflexivity |].
    rewrite H. reflexivity.
  - apply Hnone. reflexivity.
Defined.

(** ** Builtins of the create branch *)

Lemma py_max_spec (l : list Z) (m : Z) :
  py_max l = inr m → m ∈ l ∧ ∀ x, x ∈ l → x ≤ m.
Proof.
  destruct l as [|x l]; [discriminate|]. simpl. intros [= <-].
  induction l as [|y l [IHin IHle]]; simpl.
  - split; [left|]. intros z Hz. apply list_elem_of_singleton in Hz. lia.
  - split.
    + destruct (Z.max_spec y (foldr Z.max x l)) as [[_ ->]|[_ ->]].
      * apply elem_of_cons in IHin as [->|Hin]; [left | right; by right].
      * right. left.
    + intros z Hz.
      assert (Hz' : z = y ∨ z ∈ x :: l).
      { apply elem_of_cons in Hz as [->|Hz]; [right; left|].
        apply elem_of_cons in Hz as [->|Hz]; [by left | right; by right]. }
      destruct Hz' as [->|Hz']; [lia|]. specialize (IHle z Hz'). lia.
Qed.

Lemma dict_values_elem (h : gmap string Z) (i : Z) :
  i ∈ dict_values h ↔ ∃ a, h !! a = Some i.
Proof.
  unfold dict_values. rewrite list_elem_of_fmap. split.
  - intros ([a j] & -> & Hin). exists a. by apply elem_of_map_to_list.
  - intros [a Ha]. exists (a, i). split; [reflexivity|]. by apply elem_of_map_to_list.
Qed.

(** The new index is above every index bound so far. *)
Lemma py_max_fresh (h : gmap string Z) (m : Z) :
  py_max (dict_values h) = inr m →
  (∃ a, h !! a = Some m) ∧ ∀ a i, h !! a = Some i → i < m + 1.
Proof.
  intros H. apply py_max_spec in H as [Hin Hle]. split.
  - by apply dict_values_elem.
  - intros a i Ha. assert (i ≤ m); [|lia].
    apply Hle, dict_values_elem. by exists a.
Qed.

Lemma bind_aliases_in (n : Z) (aliases : list string) (h : gmap string Z) (a : string) :
  a ∈ aliases → bind_aliases n aliases h !! a = Some n.
Proof.
  unfold bind_aliases. revert h.
  induction aliases as [|b aliases IH] using rev_ind; intros h Ha.
  - by apply elem_of_nil in Ha.
  - rewrite foldl_app. simpl. apply elem_of_app in Ha as [Ha|Ha].
    + destruct (decide (b = a)) as [->|Hne].
      * apply lookup_insert_eq.
      * rewrite lookup_insert_ne by done. by apply IH.
    + apply list_elem_of_singleton in Ha as ->. apply lookup_insert_eq.
Qed.

Lemma bind_aliases_out (n : Z) (aliases : list string) (h : gmap string Z) (a : string) :
  a ∉ aliases → bind_aliases n aliases h !! a = h !! a.
Proof.
  unfold bind_aliases. revert h.
  induction aliases as [|b aliases IH]; intros h Ha; simpl; [reflexivity|].
  rewrite IH by (intros Hin; apply Ha; by right).
  apply lookup_insert_ne. intros ->. apply Ha. left.
Qed.

Lemma bind_aliases_is_Some (n : Z) (aliases : list string) (h : gmap string Z) (a : string) :
  is_Some (h !! a) → is_Some (bind_aliases n aliases h !! a).
Proof.
  intros Ha. destruct (decide (a ∈ aliases)) as [Hin|Hout].
  - rewrite bind_aliases_in by done. by eexists.
  - by rewrite bind_aliases_out.
Qed.

Lemma sorted_insert_elem (x y : string) (l : list string) :
  y ∈ sorted_insert x l ↔ y = x ∨ y ∈ l.
Proof.
  induction l as [|z l IH]; simpl.
  - rewrite list_elem_of_singleton. split; [by left | intros [?|H]; [done|]].
    by apply elem_of_nil in H.
  - destruct (String.compare x z) eqn:Hc.
    + apply String.compare_eq_iff in Hc as ->. split; [by right|].
      intros [->|H]; [left | done].
    + rewrite elem_of_cons. reflexivity.
    + rewrite !elem_of_cons, IH. tauto.
Qed.

Lemma sorted_set_elem (y : string) (l : list string) :
  y ∈ sorted_set l ↔ y ∈ l.
Proof.
  unfold sorted_set. induction l as [|x l IH]; simpl; [reflexivity|].
  rewrite sorted_insert_elem, elem_of_cons, IH. reflexivity.
Qed.

Lemma sorted_insert_HdRel (x y : string) (l : list string) :
  String.compare y x = Lt →
  HdRel (λ a b, String.compare a b = Lt) y l →
  HdRel (λ a b, String.compare a b = Lt) y (sorted_insert x l).
Proof.
  intros Hyx Hhd. destruct l as [|z l]; simpl.
  - by constructor.
  - inversion Hhd; subst. destruct (String.compare x z); by constructor.
Qed.

Lemma sorted_insert_increasing (x : string) (l : list string) :
  increasing l → increasing (sorted_insert x l).
Proof.
  unfold increasing. induction l as [|z l IH]; intros Hs; simpl.
  - by repeat constructor.
  - destruct (String.compare x z) eqn:Hc; [exact Hs | |].
    + constructor; [exact Hs | by constructor].
    + inversion Hs; subst. constructor; [by apply IH|].
      apply sorted_insert_HdRel; [|assumption].
      rewrite String.compare_antisym, Hc. reflexivity.
Qed.

Lemma sorted_set_increasing (l : list string) : increasing (sorted_set l).
Proof.
  unfold sorted_set. induction l as [|x l IH]; simpl.
  - constructor.
  - by apply sorted_insert_increasing.
Qed.

(** ** The create branch *)

Section Create.

Variables lower upper : string → string.

Lemma add_alias_spec (entry : string) (d : Dictionary) :
  add_alias lower upper entry d = (inr (), aliased lower upper entry d).
Proof.
  unfold aliased, add_alias, mbind, M_bind, get. simpl.
  by destruct (bool_decide (lower entry ∈ dom (_alias2 d))).
Qed.

Lemma aliased_known (entry : string) (d : Dictionary) :
  is_Some (_alias2 d !! lower entry) → aliased lower upper entry d = d.
Proof.
  intros H. unfold aliased, add_alias, mbind, M_bind, get. simpl.
  rewrite bool_decide_eq_true_2 by (by apply elem_of_dom). reflexivity.
Qed.

Lemma aliased_new (entry : string) (d : Dictionary) :
  _alias2 d !! lower entry = None →
  aliased lower upper entry d =
  mkDictionary
    (<[upper entry := lower entry]> (<[lower entry := lower entry]> (_alias d)))
    (<[lower entry := [lower entry; upper entry]]> (_alias2 d))
    (header d) (_header d) (entries d) (_data d).
Proof.
  intros H. unfold aliased, add_alias, mbind, M_bind, get. simpl.
  rewrite bool_decide_eq_false_2; [reflexivity|].
  rewrite elem_of_dom, H. by intros [? ?].
Qed.

(** Lines 208-211 touch the alias tables only. *)
Lemma aliased_frame (entry : string) (d : Dictionary) :
  header (aliased lower upper entry d) = header d ∧
  _header (aliased lower upper entry d) = _header d ∧
  entries (aliased lower upper entry d) = entries d ∧
  _data (aliased lower upper entry d) = _data d.
Proof.
  destruct (_alias2 d !! lower entry) as [l|] eqn:H.
  - by rewrite aliased_known by (by eexists).
  - by rewrite aliased_new.
Qed.

Lemma register_spec (entry : string) (d : Dictionary) :
  register lower upper entry d =
  let d1 := aliased lower upper entry d in
  match dict_get (_alias d1) (lower entry) with
  | inl e => (inl e, d1)
  | inr name =>
      match py_max (dict_values (_header d1)) with
      | inl e => (inl e, d1)
      | inr m =>
          match dict_get (_alias2 d1) name with
          | inl e => (inl e, d1)
          | inr aliases =>
              let h' := bind_aliases (m + 1) aliases (_header d1) in
              match dict_get h' name with
              | inl e =>
                  (inl e, mkDictionary (_alias d1) (_alias2 d1) (header d1) h'
                            (entries d1) (_data d1))
              | inr i =>
                  (inr (name, m + 1),
                   mkDictionary (_alias d1) (_alias2 d1) (<[name := i]> (header d1)) h'
                     (entries d1) (_data d1))
              end
          end
      end
  end.
Proof.
  unfold register. unfold mbind at 1. unfold M_bind at 1.
  rewrite add_alias_spec. simpl.
  unfold mbind, M_bind, get, lift, set__header, set_header. simpl.
  destruct (dict_get (_alias (aliased lower upper entry d)) (lower entry))
    as [e|name]; [reflexivity|].
  destruct (py_max (dict_values (_header (aliased lower upper entry d))))
    as [e|m]; [reflexivity|].
  destruct (dict_get (_alias2 (aliased lower upper entry d)) name)
    as [e|aliases]; [reflexivity|].
  simpl.
  by destruct (dict_get (bind_aliases (m + 1) aliases
                           (_header (aliased lower upper entry d))) name).
Qed.

Lemma create_column_spec (entry : string) (src : source) (function : callable)
    (keywords : kwargs) (d : Dictionary) :
  create_column lower upper entry src function keywords d =
  match register lower upper entry d with
  | (inl e, d1) => (inl e, d1)
  | (inr _, d1) =>
      create_rows src function keywords
        (with_entries (sorted_set (entries d1 ++ [entry])) d1)
  end.
Proof.
  unfold create_column. unfold mbind at 1. unfold M_bind at 1.
  by destruct (register lower upper entry d) as [[e|[name idx]] d1].
Qed.

(** The registry part when the name has no alias set: the default pair is
    registered and bound to the new index. *)
Lemma register_new (entry : string) (d : Dictionary) (m : Z) :
  _alias2 d !! lower entry = None →
  py_max (dict_values (_header d)) = inr m →
  register lower upper entry d =
  (inr (lower entry, m + 1),
   mkDictionary
     (<[upper entry := lower entry]> (<[lower entry := lower entry]> (_alias d)))
     (<[lower entry := [lower entry; upper entry]]> (_alias2 d))
     (<[lower entry := m + 1]> (header d))
     (<[upper entry := m + 1]> (<[lower entry := m + 1]> (_header d)))
     (entries d) (_data d)).
Proof.
  intros Hnew Hmax. rewrite register_spec, (aliased_new _ _ Hnew). simpl.
  assert (Hal : dict_get
            (<[upper entry := lower entry]> (<[lower entry := lower entry]> (_alias d)))
            (lower entry) = inr (lower entry)).
  { apply dict_get_inr. destruct (decide (upper entry = lower entry)) as [->|Hne].
    - apply lookup_insert_eq.
    - rewrite lookup_insert_ne by done. apply lookup_insert_eq. }
  rewrite Hal, Hmax.
  assert (Hal2 : dict_get (<[lower entry := [lower entry; upper entry]]> (_alias2 d))
            (lower entry) = inr [lower entry; upper entry]).
  { apply dict_get_inr, lookup_insert_eq. }
  rewrite Hal2.
  assert (Hh : dict_get (bind_aliases (m + 1) [lower entry; upper entry] (_header d))
            (lower entry) = inr (m + 1)).
  { apply dict_get_inr, bind_aliases_in. left. }
  rewrite Hh. reflexivity.
Qed.

(** The registry part when the name has an alias set that contains the
    canonical name: the whole set is bound to the new index. *)
Lemma register_known (entry name : string) (aliases : list string) (d : Dictionary)
    (m : Z) :
  is_Some (_alias2 d !! lower entry) →
  _alias d !! lower entry = Some name →
  _alias2 d !! name = Some aliases →
  name ∈ aliases →
  py_max (dict_values (_header d)) = inr m →
  register lower upper entry d =
  (inr (name, m + 1),
   mkDictionary (_alias d) (_alias2 d) (<[name := m + 1]> (header d))
     (bind_aliases (m + 1) aliases (_header d)) (entries d) (_data d)).
Proof.
  intros Hknown Hal Hal2 Hin Hmax.
  rewrite register_spec, (aliased_known _ _ Hknown). simpl.
  apply dict_get_inr in Hal, Hal2. rewrite Hal, Hmax, Hal2.
  assert (Hh : dict_get (bind_aliases (m + 1) aliases (_header d)) name = inr (m + 1)).
  { by apply dict_get_inr, bind_aliases_in. }
  by rewrite Hh.
Qed.

Lemma create_rows_return (src : source) (function : callable) (keywords : kwargs)
    (d : Dictionary) (g : Z → row → res pyval) (rows' : list (Z * row)) :
  transform_of (_header d) src function keywords = inr g →
  appended g (_data d) rows' →
  create_rows src function keywords d = (inr (), with_data rows' d).
Proof.
  intros Hg Hrows. rewrite create_rows_spec, Hg.
  apply for_key_in_self_return. by apply appended_body.
Qed.

End Create.

Section CreatePath.

Variables lower upper : string → string.

(** C3, as the code has it.  A non-override call for a non-empty name that
    is not in [_header] takes the new index, one above the largest index
    bound so far.  Without an alias set under the lower-cased name, the pair
    of the lower-cased and the upper-cased name is registered as its alias
    set, both are bound to the new index and the lower-cased name is the
    canonical name; with an alias set, every alias of the set of the
    canonical name is bound to the new index.  The entries become the sorted
    set of the old entries and the name as it was passed, and every row gets
    its derived value appended. *)
Theorem create_path (entry : string) (src : source) (function : callable)
    (keywords : kwargs) (w : console) (d : Dictionary) (m : Z) :
  entry ≠ "" → _header d !! entry = None →
  py_max (dict_values (_header d)) = inr m →
  (∀ g rows',
      _alias2 d !! lower entry = None →
      transform_of (<[upper entry := m + 1]> (<[lower entry := m + 1]> (_header d)))
        src function keywords = inr g →
      appended g (_data d) rows' →
      add_entries lower upper entry src function false keywords w d =
      Return w
        (mkDictionary
           (<[upper entry := lower entry]> (<[lower entry := lower entry]> (_alias d)))
           (<[lower entry := [lower entry; upper entry]]> (_alias2 d))
           (<[lower entry := m + 1]> (header d))
           (<[upper entry := m + 1]> (<[lower entry := m + 1]> (_header d)))
           (sorted_set (entries d ++ [entry]))
           rows')) ∧
  (∀ name aliases g rows',
      is_Some (_alias2 d !! lower entry) →
      _alias d !! lower entry = Some name →
      _alias2 d !! name = Some aliases →
      name ∈ aliases →
      transform_of (bind_aliases (m + 1) aliases (_header d)) src function keywords
        = inr g →
      appended g (_data d) rows' →
      add_entries lower upper entry src function false keywords w d =
      Return w
        (mkDictionary (_alias d) (_alias2 d)
           (<[name := m + 1]> (header d))
           (bind_aliases (m + 1) aliases (_header d))
           (sorted_set (entries d ++ [entry]))
           rows') ∧
      ∀ a, a ∈ aliases → bind_aliases (m + 1) aliases (_header d) !! a = Some (m + 1)) ∧
  (∃ a, _header d !! a = Some m) ∧
  (∀ a i, _header d !! a = Some i → i < m + 1) ∧
  increasing (sorted_set (entries d ++ [entry])) ∧
  (∀ x, x ∈ sorted_set (entries d ++ [entry]) ↔ x ∈ entries d ∨ x = entry).
Proof.
  intros He Hfree Hmax.
  rewrite (add_entries_create _ _ _ _ _ _ _ _ He Hfree). unfold run.
  rewrite create_column_spec.
  destruct (py_max_fresh _ _ Hmax) as [Hatt Hfresh].
  split; [|split; [|split; [|split; [|split]]]].
  - intros g rows' Hnew Hg Hrows.
    rewrite (register_new _ _ _ _ _ Hnew Hmax).
    by rewrite (create_rows_return _ _ _ _ g rows').
  - intros name aliases g rows' Hknown Hal Hal2 Hin Hg Hrows. split.
    + rewrite (register_known _ _ _ _ _ _ _ Hknown Hal Hal2 Hin Hmax).
      by rewrite (create_rows_return _ _ _ _ g rows').
    + intros a Ha. by apply bind_aliases_in.
  - exact Hatt.
  - exact Hfresh.
  - apply sorted_set_increasing.
  - intros x. rewrite sorted_set_elem, elem_of_app, list_elem_of_singleton. tauto.
Qed.

End CreatePath.

(** C3 on the sample dictionary: the create for [tokens]. *)
Lemma create_path_witness :
  add_entries lower_ascii upper_ascii "tokens" (SrcStr "head") shout false [] quiet
    sample
  = Return quiet tokenized.
Proof.
  assert (He : "tokens" ≠ "") by discriminate.
  assert (Hfree : _header sample !! "tokens" = None) by reflexivity.
  assert (Hmax : py_max (dict_values (_header sample)) = inr 1) by reflexivity.
  destruct (create_path lower_ascii upper_ascii "tokens" (SrcStr "head") shout []
              quiet sample 1 He Hfree Hmax) as (Hnew & _).
  erewrite Hnew; [reflexivity | reflexivity | reflexivity |].
  repeat constructor; simpl; eexists; split; reflexivity.
Defined.

(** C3, as the specification states it, fails on the sample dictionary: after the
    create for [TOKENS] the canonical name [tokens] has an index, but the
    entries hold the spelling that was passed and not the canonical name. *)
Lemma create_keeps_spelling_in_entries :
  _header sample !! "TOKENS" = None ∧
  ∃ d',
    add_entries lower_ascii upper_ascii "TOKENS" (SrcStr "head") shout false [] quiet sample
    = Return quiet d' ∧
    header d' !! "tokens" = Some 2 ∧
    _alias d' !! "TOKENS" = Some "tokens" ∧
    entries d' = ["TOKENS"; "head"; "translation"] ∧
    "tokens" ∉ entries d'.
Proof.
  split; [reflexivity|]. eexists.
  split; [vm_compute; reflexivity|].
  split; [reflexivity|]. split; [reflexivity|]. split; [reflexivity|].
  simpl. intros H.
  repeat (apply elem_of_cons in H as [H|H]; [discriminate H|]).
  by apply elem_of_nil in H.
Qed.

(** ** A mapping as source *)

Lemma for_key_in_self_raise (body : Z → row → res row) (d : Dictionary)
    (pre pre' post : list (Z * row)) (key : Z) (r : row) (e : exn) :
  _data d = pre ++ (key, r) :: post →
  Forall2 (λ kr kr', kr'.1 = kr.1 ∧ body kr.1 kr.2 = inr kr'.2) pre pre' →
  body key r = inl e →
  for_key_in_self body d = (inl e, with_data (pre' ++ (key, r) :: post) d).
Proof.
  intros Hd Hpre He. unfold for_key_in_self.
  by rewrite Hd, (for_rows_raise _ _ _ _ _ _ _ Hpre He).
Qed.

Lemma from_mapping_inr (m : gmap Z pyval) (function : callable) (key : Z) (r : row)
    (t : pyval) :
  from_mapping m function key r = inr t ↔
  ∃ v, m !! key = Some v ∧ function [v] [] = inr t.
Proof.
  unfold from_mapping, source_get. destruct (m !! key) as [v|]; simpl; split.
  - intros H. by exists v.
  - by intros (v' & [= <-] & H).
  - discriminate.
  - by intros (v & ? & _).
Qed.

Lemma from_mapping_missing (m : gmap Z pyval) (function : callable) (key : Z) (r : row) :
  m !! key = None → from_mapping m function key r = inl (KeyError (VInt key)).
Proof. intros H. unfold from_mapping, source_get. by rewrite H. Qed.

Section Mapping.

Variables lower upper : string → string.

Lemma register_data (entry : string) (d d1 : Dictionary) (r : res (string * Z)) :
  register lower upper entry d = (r, d1) → _data d1 = _data d.
Proof.
  rewrite register_spec. simpl.
  destruct (aliased_frame lower upper entry d) as (_ & _ & _ & Hdata).
  destruct (dict_get _ (lower entry)) as [e|name]; [by intros [= _ <-]|].
  destruct (py_max _) as [e|m]; [by intros [= _ <-]|].
  destruct (dict_get _ name) as [e|aliases]; [by intros [= _ <-]|].
  destruct (dict_get _ name) as [e|i]; by intros [= _ <-].
Qed.

(** C7.  With a mapping as source, the derived value of a row is the
    transform applied to the value the mapping holds for the row key.  In
    the create branch and in the override branch alike, the call returns
    when every row has such a value, which is then appended or assigned;
    and when a row key is missing from the mapping, the call raises the
    [KeyError] of that key at the first such row: the rows before it have
    been written, that row and the rows after it have not. *)
Theorem mapping_source (entry : string) (m : gmap Z pyval) (function : callable)
    (keywords : kwargs) (w : console) (d : Dictionary) :
  entry ≠ "" →
  (∀ name newIdx d1,
      _header d !! entry = None →
      register lower upper entry d = (inr (name, newIdx), d1) →
      let d2 := with_entries (sorted_set (entries d1 ++ [entry])) d1 in
      (∀ rows',
          appended (from_mapping m function) (_data d) rows' →
          add_entries lower upper entry (SrcDict m) function false keywords w d
          = Return w (with_data rows' d2)) ∧
      (∀ pre pre' key r post,
          _data d = pre ++ (key, r) :: post →
          m !! key = None →
          appended (from_mapping m function) pre pre' →
          add_entries lower upper entry (SrcDict m) function false keywords w d
          = Raise (KeyError (VInt key)) w (with_data (pre' ++ (key, r) :: post) d2))) ∧
  (∀ rIdx,
      is_Some (header d !! entry) →
      _header d !! lower entry = Some rIdx →
      (∀ rows',
          assigned (from_mapping m function) rIdx (_data d) rows' →
          add_entries lower upper entry (SrcDict m) function true keywords w d
          = Return w (with_data rows' d)) ∧
      (∀ pre pre' key r post,
          _data d = pre ++ (key, r) :: post →
          m !! key = None →
          assigned (from_mapping m function) rIdx pre pre' →
          add_entries lower upper entry (SrcDict m) function true keywords w d
          = Raise (KeyError (VInt key)) w (with_data (pre' ++ (key, r) :: post) d))).
Proof.
  intros He. split.
  - intros name newIdx d1 Hfree Hreg d2.
    rewrite (add_entries_create _ _ _ _ _ _ _ _ He Hfree). unfold run.
    rewrite create_column_spec, Hreg. fold d2.
    assert (Hdata : _data d2 = _data d) by apply (register_data _ _ _ _ Hreg).
    split.
    + intros rows' Hrows.
      rewrite (create_rows_return _ _ _ _ (from_mapping m function) rows');
        [reflexivity | reflexivity | by rewrite Hdata].
    + intros pre pre' key r post Hd Hmiss Hpre.
      rewrite create_rows_spec. simpl.
      rewrite (for_key_in_self_raise _ d2 pre pre' post key r (KeyError (VInt key)));
        [reflexivity | by rewrite Hdata | by apply appended_body |].
      unfold append_with. fold (from_mapping m function key r).
      by rewrite from_mapping_missing.
  - intros rIdx Hreg Hr. split.
    + intros rows' Hrows.
      by apply (add_entries_override_return _ _ _ _ _ _ _ _ rIdx (from_mapping m function)).
    + intros pre pre' key r post Hd Hmiss Hpre.
      rewrite (add_entries_replace _ _ _ _ _ _ _ _ He Hreg). unfold run.
      rewrite replace_column_spec. apply dict_get_inr in Hr. rewrite Hr. simpl.
      rewrite (for_key_in_self_raise _ d pre pre' post key r (KeyError (VInt key)));
        [reflexivity | assumption | by apply assigned_body |].
      unfold assign_with. fold (from_mapping m function key r).
      by rewrite from_mapping_missing.
Qed.

End Mapping.

(** C7 on the sample dictionary: a mapping that lacks the second row key. *)
Lemma mapping_source_witness :
  ∃ d',
    add_entries lower_ascii upper_ascii "count" (SrcDict {[1 := VStr "uno"]}) shout false []
      quiet sample
    = Raise (KeyError (VInt 2)) quiet d' ∧
    _data d' = [(1, [VStr "casa"; VStr "house"; VStr "UNO"]);
                (2, [VStr "perro"; VStr "dog"])].
Proof.
  assert (He : "count" ≠ "") by discriminate.
  destruct (mapping_source lower_ascii upper_ascii "count" {[1 := VStr "uno"]} shout [] quiet
              sample He) as [Hcreate _].
  edestruct Hcreate as [_ Hraise]; [reflexivity | vm_compute; reflexivity |].
  eexists. split.
  - apply (Hraise [(1, [VStr "casa"; VStr "house"])]
             [(1, [VStr "casa"; VStr "house"; VStr "UNO"])]
             2 [VStr "perro"; VStr "dog"] []); [reflexivity | reflexivity |].
    repeat constructor. simpl. eexists. split; reflexivity.
  - reflexivity.
Defined.

(** C7, as the specification states it, fails on the sample dictionary: with
    a mapping that lacks the second row key both branches raise the
    [KeyError] of that key, but not before any row is written.  After the
    create the first row holds the new value and the column is registered;
    after the override the first row holds the new value in place of the
    old one.  The rows differ from those before the call. *)
Lemma mapping_missing_key_keeps_written_rows :
  (∃ d',
      add_entries lower_ascii upper_ascii "count" (SrcDict {[1 := VStr "uno"]}) shout false []
        quiet sample
      = Raise (KeyError (VInt 2)) quiet d' ∧
      _data d' = [(1, [VStr "casa"; VStr "house"; VStr "UNO"]);
                  (2, [VStr "perro"; VStr "dog"])] ∧
      _data d' ≠ _data sample ∧
      header d' !! "count" = Some 2 ∧ _header d' !! "COUNT" = Some 2 ∧
      "count" ∈ entries d') ∧
  (∃ d',
      add_entries lower_ascii upper_ascii "head" (SrcDict {[1 := VStr "uno"]}) shout true []
        quiet sample
      = Raise (KeyError (VInt 2)) quiet d' ∧
      _data d' = [(1, [VStr "UNO"; VStr "house"]); (2, [VStr "perro"; VStr "dog"])] ∧
      _data d' ≠ _data sample).
Proof.
  split.
  - eexists. split; [vm_compute; reflexivity|].
    split; [reflexivity|]. split; [discriminate|].
    split; [reflexivity|]. split; [reflexivity|].
    simpl. left.
  - eexists. split; [vm_compute; reflexivity|].
    split; [reflexivity|]. discriminate.
Qed.

(** ** tokenize *)

Lemma str_split_nonempty (c : ascii) (s : string) : str_split c s ≠ [].
Proof.
  destruct s as [|c' s]; simpl; [discriminate|].
  destruct (Ascii.eqb c' c); [discriminate|].
  destruct (str_split c s); discriminate.
Qed.

(** Splitting loses nothing: joining the pieces gives the string back. *)
Lemma str_join_split (c : ascii) (s : string) : str_join c (str_split c s) = s.
Proof.
  induction s as [|c' s IH]; simpl; [reflexivity|].
  destruct (Ascii.eqb c' c) eqn:Hc.
  - apply Ascii.eqb_eq in Hc as ->.
    pose proof (str_split_nonempty c s) as Hne.
    destruct (str_split c s) as [|p ps]; [done|]. simpl in *. by rewrite IH.
  - pose proof (str_split_nonempty c s) as Hne.
    destruct (str_split c s) as [|p ps]; [done|].
    destruct ps as [|p' ps]; simpl in *; by rewrite <- IH.
Qed.

Section Tokenize.

Variables lower upper : string → string.
Variable Tokenizer : string → res (pyval → res string).

(** C9.  [tokenize] builds the tokenizer from the profile and calls
    [add_entries] for the target, with the source (default [head]), the
    transform, no override and no keywords.  For the target [tokens] the
    transform maps a value to the list of the strings between the spaces of
    the tokenizer's output, which joined by spaces are that output; for any
    other target it maps it to the output itself.  What the tokenizer raises
    the transform raises. *)
Theorem tokenize_adapter (orthography_profile : option string) (src : option source)
    (target conversion : option string) (keywords : kwargs) (w : console)
    (d : Dictionary) (t : pyval → res string) :
  Tokenizer (default "" orthography_profile) = inr t →
  let function := tokenize_function t (default "tokens" target) in
  tokenize lower upper Tokenizer orthography_profile src target conversion keywords w d
  = add_entries lower upper (default "tokens" target) (default (SrcStr "head") src)
      function false [] w d ∧
  (∀ x s, t x = inr s →
      (default "tokens" target = "tokens" →
       function [x] [] = inr (VList (VStr <$> str_split " " s)) ∧
       str_join " " (str_split " " s) = s) ∧
      (default "tokens" target ≠ "tokens" → function [x] [] = inr (VStr s))) ∧
  (∀ x e, t x = inl e → function [x] [] = inl e).
Proof.
  intros Ht function. subst function. split; [|split].
  - unfold tokenize. by rewrite Ht.
  - intros x s Hx. unfold tokenize_function. split.
    + intros Htok. rewrite bool_decide_eq_true_2 by done. simpl.
      rewrite Hx. simpl. split; [reflexivity | apply str_join_split].
    + intros Htok. rewrite bool_decide_eq_false_2 by done. simpl.
      by rewrite Hx.
  - intros x e Hx. unfold tokenize_function.
    destruct (bool_decide (default "tokens" target = "tokens")); simpl; by rewrite Hx.
Qed.

End Tokenize.

(** C9 on the sample dictionary, for the target [tokens] and for another
    target. *)
Lemma tokenize_adapter_witness :
  (∃ d',
      tokenize lower_ascii upper_ascii letter_tokenizer None None None None [] quiet sample
      = Return quiet d' ∧
      _header d' !! "tokens" = Some 2 ∧
      _data d' = [(1, [VStr "casa"; VStr "house";
                       VList [VStr "c"; VStr "a"; VStr "s"; VStr "a"]]);
                  (2, [VStr "perro"; VStr "dog";
                       VList [VStr "p"; VStr "e"; VStr "r"; VStr "r"; VStr "o"]])]) ∧
  (∃ d',
      tokenize lower_ascii upper_ascii letter_tokenizer None None (Some "segments") None [] quiet
        sample
      = Return quiet d' ∧
      _data d' = [(1, [VStr "casa"; VStr "house"; VStr "c a s a"]);
                  (2, [VStr "perro"; VStr "dog"; VStr "p e r r o"])]).
Proof.
  split.
  - destruct (tokenize_adapter lower_ascii upper_ascii letter_tokenizer None None None None []
                quiet sample _ eq_refl) as [Hcall _].
    rewrite Hcall. eexists. split; [vm_compute; reflexivity|]. by split.
  - destruct (tokenize_adapter lower_ascii upper_ascii letter_tokenizer None None (Some "segments")
                None [] quiet sample _ eq_refl) as [Hcall _].
    rewrite Hcall. eexists. split; [vm_compute; reflexivity|]. reflexivity.
Defined.

(** ** Where a call ends up *)

Section Paths.

Variables lower upper : string → string.

(** Whatever the flags and the answers at the prompt, a call leaves the
    instance untouched, or it ran the create branch for a name that is not in
    [_header], or it ran the override branch. *)
Lemma add_entries_paths (entry : string) (src : source) (function : callable)
    (override : bool) (keywords : kwargs) (w : console) (d : Dictionary) :
  final_dict (add_entries lower upper entry src function override keywords w d) = d ∨
  (∃ kw' w', entry ≠ "" ∧ _header d !! entry = None ∧
      add_entries lower upper entry src function override keywords w d
      = run (create_column lower upper entry src function kw') w' d) ∨
  (∃ kw' w',
      add_entries lower upper entry src function override keywords w d
      = run (replace_column lower entry src function kw') w' d).
Proof.
  remember (length (stdin w)) as n eqn:Hn.
  revert override keywords w Hn.
  induction n as [n IH] using lt_wf_ind. intros override keywords w Hn.
  destruct (decide (entry = "")) as [->|He].
  { left. by rewrite add_entries_empty. }
  assert (Hfalse : ∀ kw,
    final_dict (add_entries lower upper entry src function false kw w d) = d ∨
    (∃ kw' w', entry ≠ "" ∧ _header d !! entry = None ∧
        add_entries lower upper entry src function false kw w d
        = run (create_column lower upper entry src function kw') w' d) ∨
    (∃ kw' w',
        add_entries lower upper entry src function false kw w d
        = run (replace_column lower entry src function kw') w' d)).
  { intros kw. destruct (_header d !! entry) as [i|] eqn:Hh.
    - rewrite add_entries_conflict by (done || by eexists).
      unfold input, print. simpl.
      destruct (stdin w) as [|answer rest] eqn:Hin; [by left|].
      destruct (affirmative lower answer); [|by left].
      apply (IH (length rest)); [subst n; simpl; lia | reflexivity].
    - right. left. exists kw, w. repeat split; try done.
      by apply add_entries_create. }
  destruct override; [|apply Hfalse].
  destruct (header d !! entry) as [i|] eqn:Hh.
  - right. right. exists keywords, w. apply add_entries_replace; [done | by eexists].
  - rewrite add_entries_retry by done. apply Hfalse.
Qed.

End Paths.

(** ** Alias consistency *)

Lemma alias_consistent_ext (d d' : Dictionary) :
  header d' = header d → _alias2 d' = _alias2 d → _header d' = _header d →
  alias_consistent d → alias_consistent d'.
Proof.
  intros Hh Ha Hh' Hc name aliases a b. rewrite Hh, Ha, Hh'. apply Hc.
Qed.

(** Binding one alias set to one index keeps consistency when the set is
    apart from the alias sets of the other registered names. *)
Lemma bound_consistent (d : Dictionary) (al : gmap string string)
    (al2 : gmap string (list string)) (hd : gmap string Z) (es : list string)
    (rows : list (Z * row)) (name : string) (aliases : list string) (n : Z) :
  alias_consistent d →
  (∀ other, other ≠ name → al2 !! other = _alias2 d !! other) →
  al2 !! name = Some aliases →
  (∀ other, other ≠ name → hd !! other = header d !! other) →
  (∀ other others a,
      is_Some (header d !! other) → other ≠ name →
      _alias2 d !! other = Some others → a ∈ aliases → a ∉ others) →
  alias_consistent
    (mkDictionary al al2 hd (bind_aliases n aliases (_header d)) es rows).
Proof.
  intros Hc Hal2 Hname Hhd Hapart nm l a b Hreg Hl Ha Hb. simpl in *.
  destruct (decide (nm = name)) as [->|Hne].
  - rewrite Hname in Hl. injection Hl as <-.
    exists n. split; by apply bind_aliases_in.
  - rewrite Hhd in Hreg by done. rewrite Hal2 in Hl by done.
    destruct (Hc nm l a b Hreg Hl Ha Hb) as (j & Haj & Hbj).
    exists j. split; rewrite bind_aliases_out; try assumption.
    + intros Hin. by apply (Hapart nm l a Hreg Hne Hl Hin).
    + intros Hin. by apply (Hapart nm l b Hreg Hne Hl Hin).
Qed.

Lemma py_max_raise (h : gmap string Z) (e : exn) :
  py_max (dict_values h) = inl e → h = ∅.
Proof.
  unfold dict_values. destruct (map_to_list h) as [|[a i] l] eqn:Hl; [|discriminate].
  intros _. by apply map_to_list_empty_iff.
Qed.

Section Consistency.

Variables lower upper : string → string.

Lemma aliased_cases (entry : string) (d : Dictionary) :
  aliased lower upper entry d = d ∨
  (_alias2 d !! lower entry = None ∧
   _alias (aliased lower upper entry d) !! lower entry = Some (lower entry) ∧
   _alias2 (aliased lower upper entry d)
   = <[lower entry := [lower entry; upper entry]]> (_alias2 d)).
Proof.
  destruct (_alias2 d !! lower entry) as [l|] eqn:H.
  - left. apply aliased_known. by eexists.
  - right. rewrite (aliased_new _ _ _ _ H). simpl. repeat split.
    destruct (decide (upper entry = lower entry)) as [->|Hne].
    + apply lookup_insert_eq.
    + rewrite lookup_insert_ne by done. apply lookup_insert_eq.
Qed.

Lemma aliased_other (entry : string) (d : Dictionary) (name other : string) :
  _alias (aliased lower upper entry d) !! lower entry = Some name →
  other ≠ name →
  _alias2 (aliased lower upper entry d) !! other = _alias2 d !! other.
Proof.
  destruct (aliased_cases entry d) as [->|(_ & Hal & Hal2)]; [done|].
  rewrite Hal. intros [= <-] Hne. rewrite Hal2. by rewrite lookup_insert_ne.
Qed.

(** The registry part of a create keeps consistency: when it returns, and,
    for a dictionary whose canonical names are bound in [_header], also
    when it raises. *)
Lemma register_consistent (entry : string) (d : Dictionary) :
  alias_consistent d → binds_apart lower upper entry d →
  (∃ x, (register lower upper entry d).1 = inr x) ∨ dom (header d) ⊆ dom (_header d) →
  alias_consistent (register lower upper entry d).2.
Proof.
  intros Hc Hapart Hcase. rewrite register_spec in *. simpl in *.
  destruct (aliased_frame lower upper entry d) as (Hhd & Hh & _ & _).
  assert (Hearly : (∀ x, dict_get (_alias (aliased lower upper entry d)) (lower entry)
                          ≠ inr x) ∨
                   (∃ name, dict_get (_alias (aliased lower upper entry d)) (lower entry)
                            = inr name ∧
                            ∀ x, dict_get (_alias2 (aliased lower upper entry d)) name
                                 ≠ inr x) →
                   aliased lower upper entry d = d).
  { intros Hfail. destruct (aliased_cases entry d) as [Hd|(_ & Hal & Hal2)]; [done|].
    apply dict_get_inr in Hal. destruct Hfail as [Hfail|(name & Hn & Hfail)].
    - by destruct (Hfail _ Hal).
    - rewrite Hal in Hn. injection Hn as <-.
      destruct (Hfail [lower entry; upper entry]).
      apply dict_get_inr. rewrite Hal2. apply lookup_insert_eq. }
  destruct (dict_get (_alias (aliased lower upper entry d)) (lower entry))
    as [e|name] eqn:Hal.
  { simpl. rewrite Hearly; [done|]. left. intros x. discriminate. }
  destruct (py_max (dict_values (_header (aliased lower upper entry d))))
    as [e|m] eqn:Hmax.
  { simpl in *. destruct Hcase as [[x Hx]|Hsub]; [discriminate|].
    rewrite Hh in Hmax. apply py_max_raise in Hmax.
    intros nm l a b [i Hi]. rewrite Hhd in Hi.
    assert (Hin : nm ∈ dom (_header d)) by (apply Hsub, elem_of_dom; by eexists).
    rewrite Hmax in Hin. by apply not_elem_of_empty in Hin. }
  destruct (dict_get (_alias2 (aliased lower upper entry d)) name)
    as [e|aliases] eqn:Hal2.
  { simpl. rewrite Hearly; [done|]. right. exists name. split; [done|].
    intros x. rewrite Hal2. discriminate. }
  apply dict_get_inr in Hal, Hal2.
  assert (Hbound : ∀ hd', (∀ other, other ≠ name → hd' !! other = header d !! other) →
            alias_consistent
              (mkDictionary (_alias (aliased lower upper entry d))
                 (_alias2 (aliased lower upper entry d)) hd'
                 (bind_aliases (m + 1) aliases (_header (aliased lower upper entry d)))
                 (entries (aliased lower upper entry d))
                 (_data (aliased lower upper entry d)))).
  { intros hd' Hhd'. rewrite Hh.
    apply (bound_consistent d _ _ _ _ _ name aliases); try assumption.
    - intros other Hne. exact (aliased_other entry d name other Hal Hne).
    - intros other others a Hreg Hne Hoth Ha.
      by apply (Hapart name aliases other others a). }
  destruct (dict_get _ name) as [e|i]; simpl.
  - apply Hbound. intros other _. by rewrite Hhd.
  - apply Hbound. intros other Hne. rewrite Hhd. by rewrite lookup_insert_ne.
Qed.

Lemma create_rows_frame (src : source) (function : callable) (keywords : kwargs)
    (d : Dictionary) :
  same_registry d (create_rows src function keywords d).2.
Proof.
  rewrite create_rows_spec.
  destruct (transform_of (_header d) src function keywords) as [e|g];
    [by repeat split|].
  apply for_key_in_self_frame.
Qed.

Lemma create_column_registry (entry : string) (src : source) (function : callable)
    (keywords : kwargs) (d : Dictionary) :
  let d1 := (register lower upper entry d).2 in
  let d' := (create_column lower upper entry src function keywords d).2 in
  header d' = header d1 ∧ _alias2 d' = _alias2 d1 ∧ _header d' = _header d1 ∧
  ((∃ u, (create_column lower upper entry src function keywords d).1 = inr u) →
   ∃ x, (register lower upper entry d).1 = inr x).
Proof.
  simpl. rewrite create_column_spec.
  destruct (register lower upper entry d) as [[e|x] d1]; simpl.
  - repeat split. by intros [u Hu].
  - destruct (create_rows_frame src function keywords
                (with_entries (sorted_set (entries d1 ++ [entry])) d1))
      as (_ & Ha2 & Hh & Hh' & _).
    simpl in *. repeat split; try assumption. intros _. by exists x.
Qed.

(** C1, as the code has it.  A call of [add_entries] keeps alias
    consistency when the aliases that a create for the name would bind are
    apart from the alias sets of the other registered names: for every call
    that returns, and, for a dictionary whose canonical names are all bound
    in [_header], also for a call that raises. *)
Theorem alias_consistent_preserved (entry : string) (src : source)
    (function : callable) (override : bool) (keywords : kwargs) (w : console)
    (d : Dictionary) :
  alias_consistent d →
  binds_apart lower upper entry d →
  let o := add_entries lower upper entry src function override keywords w d in
  (∀ w' d', o = Return w' d' → alias_consistent d') ∧
  (dom (header d) ⊆ dom (_header d) → alias_consistent (final_dict o)).
Proof.
  intros Hc Hapart o.
  assert (Hmain : (∃ w' d', o = Return w' d') ∨ dom (header d) ⊆ dom (_header d) →
                  alias_consistent (final_dict o)).
  { subst o. intros Hcase.
    destruct (add_entries_paths lower upper entry src function override keywords w d)
      as [Hsame|[(kw' & w2 & He & Hfree & Hrun)|(kw' & w2 & Hrun)]].
    - by rewrite Hsame.
    - rewrite Hrun in *. unfold run in *.
      destruct (create_column_registry entry src function kw' d)
        as (Hh & Ha2 & Hh' & Hret).
      assert (Hreg : alias_consistent (register lower upper entry d).2).
      { apply register_consistent; try assumption.
        destruct Hcase as [(w' & d' & Ho)|Hsub]; [left | by right].
        apply Hret.
        destruct (create_column lower upper entry src function kw' d) as [[e|u] dd];
          [discriminate | by exists u]. }
      destruct (create_column lower upper entry src function kw' d) as [[e|u] dd];
        simpl in *; by apply (alias_consistent_ext _ _ Hh Ha2 Hh').
    - rewrite Hrun. unfold run.
      destruct (replace_column_frame lower entry src function kw' d)
        as [(_ & Ha2 & Hh & Hh' & _) _].
      destruct (replace_column lower entry src function kw' d) as [[e|u] dd];
        simpl in *; by apply (alias_consistent_ext _ _ Hh Ha2 Hh'). }
  split.
  - intros w' d' Ho. replace d' with (final_dict o) by (by rewrite Ho).
    apply Hmain. left. by exists w', d'.
  - intros Hsub. apply Hmain. by right.
Qed.

End Consistency.

(** C1 on the tokenized dictionary: a create for [ipa], whose default
    aliases are apart from those of [tokens]. *)
Lemma alias_consistent_preserved_witness :
  alias_consistent tokenized ∧
  alias_consistent
    (final_dict
       (add_entries lower_ascii upper_ascii "ipa" (SrcStr "head") shout false []
          quiet tokenized)).
Proof.
  assert (Hin : ∀ a : string, a ∈ ["tokens"; "TOKENS"] → a = "tokens" ∨ a = "TOKENS").
  { intros a Ha. apply elem_of_cons in Ha as [->|Ha]; [by left|].
    apply list_elem_of_singleton in Ha as ->. by right. }
  assert (Hc : alias_consistent tokenized).
  { intros name aliases a b _ Hal Ha Hb. simpl in Hal.
    apply lookup_singleton_Some in Hal as [<- <-].
    exists 2. destruct (Hin a Ha) as [->| ->], (Hin b Hb) as [->| ->];
      split; reflexivity. }
  assert (Ha : binds_apart lower_ascii upper_ascii "ipa" tokenized).
  { intros name aliases other others a Hname Hal _ _ Hoth Ha Ha'.
    simpl in Hoth. apply lookup_singleton_Some in Hoth as [<- <-].
    vm_compute in Hname. injection Hname as <-.
    vm_compute in Hal. injection Hal as <-.
    destruct (Hin a Ha') as [->| ->];
      repeat (apply elem_of_cons in Ha as [Ha|Ha]; [discriminate Ha|]);
      by apply elem_of_nil in Ha. }
  split; [exact Hc|].
  destruct (alias_consistent_preserved lower_ascii upper_ascii "ipa" (SrcStr "head")
              shout false [] quiet tokenized Hc Ha) as [_ Hany].
  apply Hany.
  apply (bool_decide_unpack (dom (header tokenized) ⊆ dom (_header tokenized))).
  vm_compute. exact I.
Defined.

(** C1, as the specification states it, fails from the configured dictionary.  The
    configuration knows [phonetic] as an alias of [ipa].  A create for
    [phonetic] gives it an alias set of its own; a later create for [ipa]
    binds the alias set of [ipa], [phonetic] included, to the next index,
    and the two aliases of the registered name [phonetic] then resolve to
    two indices. *)
Lemma shared_alias_breaks_consistency :
  alias_consistent configured ∧
  ∃ d1 d2,
    add_entries lower_ascii upper_ascii "phonetic" (SrcStr "head") shout false [] quiet configured
    = Return quiet d1 ∧
    add_entries lower_ascii upper_ascii "ipa" (SrcStr "head") shout false [] quiet d1
    = Return quiet d2 ∧
    header d2 !! "phonetic" = Some 2 ∧
    _alias2 d2 !! "phonetic" = Some ["phonetic"; "PHONETIC"] ∧
    _header d2 !! "phonetic" = Some 3 ∧
    _header d2 !! "PHONETIC" = Some 2 ∧
    ¬ alias_consistent d2.
Proof.
  split.
  { intros name aliases a b Hreg Hal. simpl in Hal.
    apply lookup_singleton_Some in Hal as [<- _].
    destruct Hreg as [i Hi]. discriminate Hi. }
  eexists _, _. split; [vm_compute; reflexivity|].
  split; [vm_compute; reflexivity|].
  split; [reflexivity|]. split; [reflexivity|].
  split; [reflexivity|]. split; [reflexivity|].
  intros Hc.
  destruct (Hc "phonetic" ["phonetic"; "PHONETIC"] "phonetic" "PHONETIC")
    as (i & Hi & Hj).
  - by exists 2.
  - reflexivity.
  - left.
  - right. left.
  - vm_compute in Hi, Hj. congruence.
Qed.

(** ** Row width *)

(** C2 at a failing input.  Every row of the sample dictionary holds one
    value per canonical column.  [Head] is not a key of [_header], so the
    call takes the create branch; its canonical name [head] is a column
    already, so [header] keeps its two names, [head] now at the new index,
    while every row has grown to three values. *)
Theorem mixed_case_breaks_row_width :
  row_width sample ∧
  _header sample !! "Head" = None ∧
  ∃ d',
    add_entries lower_ascii upper_ascii "Head" (SrcStr "translation") shout false [] quiet sample
    = Return quiet d' ∧
    size (header d') = 2%nat ∧
    header d' !! "head" = Some 2 ∧
    _data d' = [(1, [VStr "casa"; VStr "house"; VStr "HOUSE"]);
                (2, [VStr "perro"; VStr "dog"; VStr "DOG"])] ∧
    ¬ row_width d'.
Proof.
  split.
  { intros key r Hin. apply list_elem_of_In in Hin. simpl in Hin.
    destruct Hin as [[= <- <-]|[[= <- <-]|[]]]; reflexivity. }
  split; [reflexivity|].
  eexists. split; [vm_compute; reflexivity|].
  split; [reflexivity|]. split; [reflexivity|]. split; [reflexivity|].
  intros Hw. specialize (Hw 1 [VStr "casa"; VStr "house"; VStr "HOUSE"]).
  assert (Hlen : length [VStr "casa"; VStr "house"; VStr "HOUSE"] = 2%nat).
  { rewrite Hw; [reflexivity | left]. }
  discriminate Hlen.
Qed.

(** What the failing input of C2 has that other inputs lack: its canonical
    name is registered already.  Without that, a call that returns keeps the
    row width, in the create branch and in the override branch. *)

Section RowWidth.

Variables lower upper : string → string.

Lemma register_inr (entry : string) (d d1 : Dictionary) (x : string * Z) :
  register lower upper entry d = (inr x, d1) →
  ∃ name i,
    _alias (aliased lower upper entry d) !! lower entry = Some name ∧
    header d1 = <[name := i]> (header d) ∧ _data d1 = _data d.
Proof.
  intros Hreg. pose proof (register_data _ _ _ _ _ _ Hreg) as Hdata.
  rewrite register_spec in Hreg. simpl in Hreg.
  destruct (aliased_frame lower upper entry d) as (Hhd & _ & _ & _).
  destruct (dict_get _ (lower entry)) as [e|name] eqn:Hal; [discriminate|].
  destruct (py_max _) as [e|m]; [discriminate|].
  destruct (dict_get _ name) as [e|aliases]; [discriminate|].
  destruct (dict_get _ name) as [e|i]; [discriminate|].
  injection Hreg as _ <-. exists name, i. simpl.
  apply dict_get_inr in Hal. by rewrite Hhd.
Qed.

(** X19.  A call of [add_entries] that returns keeps the row width, every
    row holding one value per canonical name, unless it is a create for a
    name whose canonical name is in [header] already. *)
Lemma row_width_preserved (entry : string) (src : source) (function : callable)
    (override : bool) (keywords : kwargs) (w w' : console) (d d' : Dictionary) :
  row_width d →
  (∀ name, _header d !! entry = None →
           _alias (aliased lower upper entry d) !! lower entry = Some name →
           header d !! name = None) →
  add_entries lower upper entry src function override keywords w d = Return w' d' →
  row_width d'.
Proof.
  intros Hw Hnew Ho.
  destruct (add_entries_paths lower upper entry src function override keywords w d)
    as [Hsame|[(kw' & w2 & He & Hfree & Hrun)|(kw' & w2 & Hrun)]].
  - rewrite Ho in Hsame. simpl in Hsame. by subst d'.
  - rewrite Hrun in Ho. unfold run in Ho.
    destruct (create_column lower upper entry src function kw' d) as [[e|u] dd] eqn:Hc;
      [discriminate|]. injection Ho as _ ->.
    rewrite create_column_spec in Hc.
    destruct (register lower upper entry d) as [[e|x] d1] eqn:Hreg; [discriminate|].
    apply register_inr in Hreg as (name & i & Hal & Hhd & Hdata).
    rewrite create_rows_spec in Hc. simpl in Hc.
    destruct (transform_of (_header d1) src function kw') as [e|g]; [discriminate|].
    apply for_key_in_self_inr in Hc as [Hd' Hrows]. simpl in Hrows.
    intros key r' Hin. rewrite Hd'. simpl. rewrite Hhd.
    rewrite map_size_insert_None by (by apply Hnew).
    apply list_elem_of_lookup in Hin as [p Hp].
    destruct (Forall2_lookup_r _ _ _ _ _ Hrows Hp) as ([k r] & Hq & Hk & Hb).
    simpl in *. apply append_with_inr in Hb as (t & _ & ->).
    rewrite length_app. simpl. rewrite Hdata in Hq.
    rewrite (Hw k r) by (apply list_elem_of_lookup; by exists p). lia.
  - rewrite Hrun in Ho. unfold run in Ho.
    destruct (replace_column lower entry src function kw' d) as [[e|u] dd] eqn:Hc;
      [discriminate|]. injection Ho as _ ->.
    apply replace_column_inr in Hc as (rIdx & g & _ & _ & Hrows & Hd').
    intros key r' Hin. rewrite Hd'. simpl.
    apply list_elem_of_lookup in Hin as [p Hp].
    destruct (Forall2_lookup_r _ _ _ _ _ Hrows Hp) as ([k r] & Hq & Hk & t & _ & Hset).
    simpl in *. rewrite (py_setitem_length _ _ _ _ Hset).
    apply (Hw k r). apply list_elem_of_lookup. by exists p.
Qed.

End RowWidth.

(** * Further properties of add_entries *)

(** ** What no call does to the rows *)

Lemma for_rows_step (body : Z → row → res row) (items : list (Z * row)) :
  Forall2 (λ kr kr', kr'.1 = kr.1 ∧ (kr'.2 = kr.2 ∨ body kr.1 kr.2 = inr kr'.2))
    items (for_rows body items).2.
Proof.
  induction items as [|[key r] items IH]; simpl; [constructor|].
  destruct (body key r) as [e|r'] eqn:Hb; simpl.
  - constructor; [by split; [|left]|].
    clear. induction items as [|kr items IH]; constructor; [by split; [|left] | exact IH].
  - destruct (for_rows body items) as [o rest']. simpl in *.
    constructor; [split; [reflexivity | by right] | exact IH].
Qed.

Lemma for_key_in_self_data (body : Z → row → res row) (d : Dictionary) :
  _data (for_key_in_self body d).2 = (for_rows body (_data d)).2.
Proof.
  unfold for_key_in_self. by destruct (for_rows body (_data d)) as [[e|] items].
Qed.

Lemma final_dict_run (m : M unit) (w : console) (d : Dictionary) :
  final_dict (run m w d) = (m d).2.
Proof. unfold run. by destruct (m d) as [[e|u] d']. Qed.

Lemma Forall2_refl_on {A} (R : A → A → Prop) (l : list A) :
  (∀ x, R x x) → Forall2 R l l.
Proof. intros H. induction l; constructor; auto. Qed.

Section Rows.

Variables lower upper : string → string.

Lemma create_column_inr (entry : string) (src : source) (function : callable)
    (keywords : kwargs) (d d' : Dictionary) (u : unit) :
  create_column lower upper entry src function keywords d = (inr u, d') →
  ∃ x d1 g,
    register lower upper entry d = (inr x, d1) ∧
    transform_of (_header d1) src function keywords = inr g ∧
    appended g (_data d) (_data d') ∧
    d' = with_data (_data d') (with_entries (sorted_set (entries d1 ++ [entry])) d1).
Proof.
  rewrite create_column_spec.
  destruct (register lower upper entry d) as [[e|x] d1] eqn:Hreg; [discriminate|].
  rewrite create_rows_spec. simpl.
  destruct (transform_of (_header d1) src function keywords) as [e|g] eqn:Hg;
    [discriminate|].
  intros H. apply for_key_in_self_inr in H as [Hd' Hrows]. simpl in Hrows.
  exists x, d1, g. rewrite <- (register_data _ _ _ _ _ _ Hreg).
  repeat split; try assumption. by apply appended_body.
Qed.

Lemma create_column_rows (entry : string) (src : source) (function : callable)
    (keywords : kwargs) (d : Dictionary) :
  Forall2 row_step (_data d)
    (_data (create_column lower upper entry src function keywords d).2).
Proof.
  rewrite create_column_spec.
  destruct (register lower upper entry d) as [[e|x] d1] eqn:Hreg; simpl.
  - rewrite (register_data _ _ _ _ _ _ Hreg).
    apply Forall2_refl_on. intros kr. split; [reflexivity | by left].
  - rewrite create_rows_spec. simpl.
    rewrite <- (register_data _ _ _ _ _ _ Hreg).
    destruct (transform_of (_header d1) src function keywords) as [e|g]; simpl.
    + apply Forall2_refl_on. intros kr. split; [reflexivity | by left].
    + rewrite for_key_in_self_data. simpl.
      eapply Forall2_impl; [apply for_rows_step|].
      intros kr kr' [Hk [Heq|Hb]]; (split; [exact Hk|]).
      * left. exact (f_equal length Heq).
      * right. apply append_with_inr in Hb as (t & _ & ->).
        rewrite length_app. simpl. lia.
Qed.

Lemma replace_column_rows (entry : string) (src : source) (function : callable)
    (keywords : kwargs) (d : Dictionary) :
  Forall2 (λ kr kr', kr'.1 = kr.1 ∧ length kr'.2 = length kr.2) (_data d)
    (_data (replace_column lower entry src function keywords d).2).
Proof.
  rewrite replace_column_spec.
  destruct (dict_get (_header d) (lower entry)) as [e|rIdx]; simpl;
    [by apply Forall2_refl_on|].
  destruct (transform_of (_header d) src function keywords) as [e|g]; simpl;
    [by apply Forall2_refl_on|].
  rewrite for_key_in_self_data.
  eapply Forall2_impl; [apply for_rows_step|].
  intros kr kr' [Hk [Heq|Hb]]; (split; [exact Hk|]).
  - exact (f_equal length Heq).
  - apply assign_with_inr in Hb as (t & _ & Hset).
    by apply py_setitem_length in Hset.
Qed.

(** X1.  No call of [add_entries], whether it returns or raises, adds,
    removes or reorders a row: the row keys stay as they were, in their
    order, and every row keeps its length or has grown by one value.  When
    the call returns, the rows have all kept their length or have all grown
    by one. *)
Theorem add_entries_rows (entry : string) (src : source) (function : callable)
    (override : bool) (keywords : kwargs) (w : console) (d : Dictionary) :
  let o := add_entries lower upper entry src function override keywords w d in
  Forall2 row_step (_data d) (_data (final_dict o)) ∧
  (∀ w' d', o = Return w' d' →
     Forall2 (λ kr kr', length kr'.2 = length kr.2) (_data d) (_data d') ∨
     Forall2 (λ kr kr', length kr'.2 = S (length kr.2)) (_data d) (_data d')).
Proof.
  intros o. subst o.
  destruct (add_entries_paths lower upper entry src function override keywords w d)
    as [Hsame|[(kw' & w2 & He & Hfree & Hrun)|(kw' & w2 & Hrun)]].
  - split.
    + rewrite Hsame. apply Forall2_refl_on. intros kr. split; [reflexivity | by left].
    + intros w' d' Ho. rewrite Ho in Hsame. simpl in Hsame. subst d'.
      left. by apply Forall2_refl_on.
  - rewrite Hrun. split.
    + rewrite final_dict_run. apply create_column_rows.
    + intros w' d'. unfold run.
      destruct (create_column lower upper entry src function kw' d) as [[e|u] dd] eqn:Hc;
        [discriminate|].
      intros [= _ <-]. right.
      apply create_column_inr in Hc as (x & d1 & g & _ & _ & Hrows & _).
      eapply Forall2_impl; [exact Hrows|].
      intros kr kr' (_ & t & _ & ->). rewrite length_app. simpl.
      apply Nat.add_1_r.
  - rewrite Hrun. split.
    + rewrite final_dict_run.
      eapply Forall2_impl; [apply replace_column_rows|].
      intros kr kr' [Hk Hl]. split; [exact Hk | by left].
    + intros w' d'. unfold run.
      pose proof (replace_column_rows entry src function kw' d) as Hrows.
      destruct (replace_column lower entry src function kw' d) as [[e|u] dd];
        [discriminate|].
      intros [= _ <-]. left.
      eapply Forall2_impl; [exact Hrows|]. by intros kr kr' [_ Hl].
Qed.

End Rows.

(** ** What no call does to the registry *)

Lemma is_Some_insert {V} (m : gmap string V) (j k : string) (v : V) :
  is_Some (m !! k) → is_Some (<[j := v]> m !! k).
Proof.
  intros H. destruct (decide (j = k)) as [->|Hne].
  - rewrite lookup_insert_eq. by eexists.
  - by rewrite lookup_insert_ne.
Qed.

Lemma registry_grows_refl (d : Dictionary) : registry_grows d d.
Proof. by repeat split. Qed.

Lemma registry_grows_trans (d1 d2 d3 : Dictionary) :
  registry_grows d1 d2 → registry_grows d2 d3 → registry_grows d1 d3.
Proof.
  intros (A1 & B1 & C1 & D1 & E1) (A2 & B2 & C2 & D2 & E2).
  split; [|split; [|split; [|split]]]; auto.
Qed.

Lemma same_registry_grows (d d' : Dictionary) :
  same_registry d d' → registry_grows d d'.
Proof.
  intros (Ha & Ha2 & Hh & Hh' & He).
  split; [|split; [|split; [|split]]]; intros x; by rewrite ?Ha, ?Ha2, ?Hh, ?Hh', ?He.
Qed.

Section Registry.

Variables lower upper : string → string.

Lemma aliased_grows (entry : string) (d : Dictionary) :
  registry_grows d (aliased lower upper entry d).
Proof.
  destruct (_alias2 d !! lower entry) as [l|] eqn:H.
  - rewrite aliased_known by (by eexists). apply registry_grows_refl.
  - rewrite (aliased_new _ _ _ _ H).
    split; [|split; [|split; [|split]]]; simpl; try done.
    + intros a Ha. by do 2 apply is_Some_insert.
    + intros n Hn. by apply is_Some_insert.
Qed.

Lemma register_grows (entry : string) (d : Dictionary) :
  registry_grows d (register lower upper entry d).2.
Proof.
  apply (registry_grows_trans _ _ _ (aliased_grows entry d)).
  rewrite register_spec. simpl.
  destruct (dict_get _ (lower entry)) as [e|name]; [apply registry_grows_refl|].
  destruct (py_max _) as [e|m]; [apply registry_grows_refl|].
  destruct (dict_get _ name) as [e|aliases]; [apply registry_grows_refl|].
  destruct (dict_get _ name) as [e|i]; simpl;
    (split; [|split; [|split; [|split]]]; simpl; try done).
  - intros a Ha. by apply bind_aliases_is_Some.
  - intros n Hn. by apply is_Some_insert.
  - intros a Ha. by apply bind_aliases_is_Some.
Qed.

Lemma create_column_grows (entry : string) (src : source) (function : callable)
    (keywords : kwargs) (d : Dictionary) :
  registry_grows d (create_column lower upper entry src function keywords d).2.
Proof.
  pose proof (register_grows entry d) as Hreg.
  rewrite create_column_spec.
  destruct (register lower upper entry d) as [[e|x] d1]; simpl in *; [exact Hreg|].
  apply (registry_grows_trans _ _ _ Hreg).
  apply (registry_grows_trans _ (with_entries (sorted_set (entries d1 ++ [entry])) d1)).
  - split; [|split; [|split; [|split]]]; simpl; try done.
    intros y Hy. apply sorted_set_elem, elem_of_app. by left.
  - apply same_registry_grows, create_rows_frame.
Qed.

(** X2.  No call of [add_entries], whether it returns or raises, takes a
    name out of the registry: every alias, every alias set, every name of
    [header], every name of [_header] and every entry that was there before
    the call is there after it. *)
Theorem add_entries_never_unregisters (entry : string) (src : source)
    (function : callable) (override : bool) (keywords : kwargs) (w : console)
    (d : Dictionary) :
  registry_grows d
    (final_dict (add_entries lower upper entry src function override keywords w d)).
Proof.
  destruct (add_entries_paths lower upper entry src function override keywords w d)
    as [Hsame|[(kw' & w2 & He & Hfree & Hrun)|(kw' & w2 & Hrun)]].
  - rewrite Hsame. apply registry_grows_refl.
  - rewrite Hrun, final_dict_run. apply create_column_grows.
  - rewrite Hrun, final_dict_run.
    apply same_registry_grows, replace_column_frame.
Qed.

(** ** An override for a name that is only an alias *)

Lemma conflict_loop (entry : string) (src : source) (function : callable)
    (d : Dictionary) (l : list string) :
  entry ≠ "" → header d !! entry = None → is_Some (_header d !! entry) →
  ∀ keywords w, stdin w = l →
  let o := add_entries lower upper entry src function false keywords w d in
  final_dict o = d ∧
  (Forall (λ a, affirmative lower a = true) l →
     ∃ w', o = Raise EOFError w' d ∧ stdin w' = []) ∧
  (∀ yes answer rest,
     l = yes ++ answer :: rest →
     Forall (λ a, affirmative lower a = true) yes →
     affirmative lower answer = false →
     ∃ w', o = Return w' d ∧ stdin w' = rest).
Proof.
  intros He Hh Hh'. induction l as [|a l IH]; intros keywords w Hin o; subst o;
    rewrite (add_entries_conflict _ _ _ _ _ _ _ _ He Hh');
    unfold input, print; simpl; rewrite Hin.
  - split; [reflexivity|]. split.
    + intros _. by eexists.
    + intros yes answer rest Hl. by destruct yes.
  - destruct (affirmative lower a) eqn:Ha.
    + rewrite (add_entries_retry _ _ _ _ _ _ _ _ He Hh).
      destruct (IH [] (mkConsole l
                  (stdout w ++ [conflict_message entry +:+ ""] ++ [conflict_prompt]))
                  eq_refl) as (Hd & Hall & Hfirst).
      rewrite <- app_assoc. split; [exact Hd|]. split.
      * intros Hyes. apply Hall. by inversion Hyes.
      * intros yes answer rest Hl Hyes Hno.
        destruct yes as [|y yes]; simpl in Hl; injection Hl as -> ->.
        { congruence. }
        apply (Hfirst yes answer rest); [reflexivity | by inversion Hyes | exact Hno].
    + split; [reflexivity|]. split.
      * intros Hyes. inversion Hyes; congruence.
      * intros yes answer rest Hl Hyes Hno.
        destruct yes as [|y yes]; simpl in Hl; injection Hl as -> ->.
        { by eexists. }
        inversion Hyes; congruence.
Qed.

(** X3.  For a name that is a key of [_header] but not of [header], such as
    the upper-case alias of a column, no call of [add_entries] writes
    anything, with or without override: an override is retried without it
    and every retry asks at the prompt.  The call returns at the first
    answer that is not affirmative, and raises [EOFError] when every line
    of standard input is affirmative. *)
Theorem alias_only_never_written (entry : string) (src : source)
    (function : callable) (override : bool) (keywords : kwargs) (w : console)
    (d : Dictionary) :
  entry ≠ "" → header d !! entry = None → is_Some (_header d !! entry) →
  let o := add_entries lower upper entry src function override keywords w d in
  final_dict o = d ∧
  (Forall (λ a, affirmative lower a = true) (stdin w) →
     ∃ w', o = Raise EOFError w' d ∧ stdin w' = []) ∧
  (∀ yes answer rest,
     stdin w = yes ++ answer :: rest →
     Forall (λ a, affirmative lower a = true) yes →
     affirmative lower answer = false →
     ∃ w', o = Return w' d ∧ stdin w' = rest).
Proof.
  intros He Hh Hh' o. subst o. destruct override.
  - rewrite (add_entries_retry _ _ _ _ _ _ _ _ He Hh).
    by apply (conflict_loop entry src function d (stdin w)).
  - by apply (conflict_loop entry src function d (stdin w)).
Qed.

End Registry.

(** X3 on the sample dictionary: an override for [HEAD] with the answers
    [y], [yes], [n]. *)
Lemma alias_only_never_written_witness :
  ∃ w',
    add_entries lower_ascii upper_ascii "HEAD" (SrcStr "translation") shout true []
      (mkConsole ["y"; "yes"; "n"; "y"] []) sample = Return w' sample ∧
    stdin w' = ["y"].
Proof.
  assert (He : "HEAD" ≠ "") by discriminate.
  assert (Hh' : is_Some (_header sample !! "HEAD")) by (by exists 0).
  destruct (alias_only_never_written lower_ascii upper_ascii "HEAD"
              (SrcStr "translation") shout true [] (mkConsole ["y"; "yes"; "n"; "y"] [])
              sample He eq_refl Hh') as (_ & _ & Hfirst).
  apply (Hfirst ["y"; "yes"] "n" ["y"]); [reflexivity | | reflexivity].
  repeat constructor.
Defined.

(** ** Failures before and inside the row loop *)

Lemma res_mapM_first_error {A B} (f : A → res B) (pre post : list A) (x : A) (e : exn) :
  Forall (λ y, ∃ v, f y = inr v) pre → f x = inl e →
  res_mapM f (pre ++ x :: post) = inl e.
Proof.
  intros Hpre Hx. induction Hpre as [|y pre [v Hy] _ IH]; simpl.
  - by rewrite Hx.
  - by rewrite Hy, IH.
Qed.

Lemma dict_get_None {V} (m : gmap string V) (k : string) :
  m !! k = None → dict_get m k = inl (KeyError (VStr k)).
Proof. intros H. unfold dict_get. by rewrite H. Qed.

(** Resolving the source fails with the [KeyError] of the first column name
    that is not in the header. *)
Lemma transform_of_unknown (h : gmap string Z) (s : string) (function : callable)
    (keywords : kwargs) (pre post : list string) (n : string) :
  (str_contains "," s = false ∧ pre = [] ∧ n = s ∨
   str_contains "," s = true ∧ str_split "," s = pre ++ n :: post) →
  Forall (λ c, is_Some (h !! c)) pre → h !! n = None →
  transform_of h (SrcStr s) function keywords = inl (KeyError (VStr n)).
Proof.
  intros [(Hc & -> & ->)|(Hc & Hsplit)] Hpre Hn; unfold transform_of; rewrite Hc.
  - by rewrite (dict_get_None _ _ Hn).
  - rewrite Hsplit.
    rewrite (res_mapM_first_error _ pre post n (KeyError (VStr n))); [reflexivity| |].
    + eapply Forall_impl; [exact Hpre|]. intros c [i Hi]. exists i.
      by apply dict_get_inr.
    + by apply dict_get_None.
Qed.

Section Failures.

Variables lower upper : string → string.

Lemma register_inr_name (entry name : string) (newIdx : Z) (d d1 : Dictionary) :
  register lower upper entry d = (inr (name, newIdx), d1) →
  ∃ i, header d1 = <[name := i]> (header d) ∧ _header d1 !! name = Some i ∧
       _data d1 = _data d.
Proof.
  intros Hreg. pose proof (register_data _ _ _ _ _ _ Hreg) as Hdata.
  rewrite register_spec in Hreg. simpl in Hreg.
  destruct (aliased_frame lower upper entry d) as (Hhd & _ & _ & _).
  destruct (dict_get _ (lower entry)) as [e|name'] eqn:Hal; [discriminate|].
  destruct (py_max _) as [e|m]; [discriminate|].
  destruct (dict_get _ name') as [e|aliases]; [discriminate|].
  destruct (dict_get _ name') as [e|i] eqn:Hi; [discriminate|].
  injection Hreg as -> _ <-. exists i. simpl. apply dict_get_inr in Hi.
  by rewrite Hhd.
Qed.

Lemma add_entries_create_raise_early (entry : string) (src : source)
    (function : callable) (keywords : kwargs) (w : console) (d d1 : Dictionary)
    (x : string * Z) (e : exn) :
  entry ≠ "" → _header d !! entry = None →
  register lower upper entry d = (inr x, d1) →
  transform_of (_header d1) src function keywords = inl e →
  add_entries lower upper entry src function false keywords w d
  = Raise e w (with_entries (sorted_set (entries d1 ++ [entry])) d1).
Proof.
  intros He Hfree Hreg Hg.
  rewrite (add_entries_create _ _ _ _ _ _ _ _ He Hfree). unfold run.
  rewrite create_column_spec, Hreg, create_rows_spec. simpl. by rewrite Hg.
Qed.

(** X4.  A create whose source names a column that is not in the header
    raises the [KeyError] of the first such name, after the registry part has
    run and before the row loop: the new name is in [header] with an index,
    the entries hold the new name, and no row has a value for it. *)
Theorem create_unknown_source (entry s : string) (function : callable)
    (keywords : kwargs) (w : console) (d d1 : Dictionary) (name : string)
    (newIdx : Z) (pre post : list string) (n : string) :
  entry ≠ "" → _header d !! entry = None →
  register lower upper entry d = (inr (name, newIdx), d1) →
  (str_contains "," s = false ∧ pre = [] ∧ n = s ∨
   str_contains "," s = true ∧ str_split "," s = pre ++ n :: post) →
  Forall (λ c, is_Some (_header d1 !! c)) pre → _header d1 !! n = None →
  ∃ d',
    add_entries lower upper entry (SrcStr s) function false keywords w d
    = Raise (KeyError (VStr n)) w d' ∧
    is_Some (header d' !! name) ∧ entry ∈ entries d' ∧ _data d' = _data d.
Proof.
  intros He Hfree Hreg Hs Hpre Hn.
  exists (with_entries (sorted_set (entries d1 ++ [entry])) d1). split.
  - apply (add_entries_create_raise_early _ _ _ _ _ _ _ (name, newIdx));
      try assumption.
    by apply (transform_of_unknown _ _ _ _ pre post).
  - apply register_inr_name in Hreg as (i & Hhd & _ & Hdata). simpl.
    split; [|split; [|exact Hdata]].
    + rewrite Hhd, lookup_insert_eq. by eexists.
    + apply sorted_set_elem, elem_of_app. right. by apply list_elem_of_singleton.
Qed.

(** X5.  An override that cannot resolve its column or its source changes
    nothing at all: when the lower-cased name is not in [_header] it raises
    the [KeyError] of that name, and when a source column is not in the
    header it raises the [KeyError] of the first such name, and in both
    cases the instance is as before the call. *)
Theorem override_unresolved (entry : string) (src : source) (function : callable)
    (keywords : kwargs) (w : console) (d : Dictionary) :
  entry ≠ "" → is_Some (header d !! entry) →
  let o := add_entries lower upper entry src function true keywords w d in
  (_header d !! lower entry = None →
   o = Raise (KeyError (VStr (lower entry))) w d) ∧
  (∀ s pre post n,
     src = SrcStr s →
     is_Some (_header d !! lower entry) →
     (str_contains "," s = false ∧ pre = [] ∧ n = s ∨
      str_contains "," s = true ∧ str_split "," s = pre ++ n :: post) →
     Forall (λ c, is_Some (_header d !! c)) pre → _header d !! n = None →
     o = Raise (KeyError (VStr n)) w d).
Proof.
  intros He Hh o. subst o.
  rewrite (add_entries_replace _ _ _ _ _ _ _ _ He Hh). unfold run.
  rewrite replace_column_spec. split.
  - intros Hnone. by rewrite (dict_get_None _ _ Hnone).
  - intros s pre post n -> [rIdx Hr] Hs Hpre Hn.
    apply dict_get_inr in Hr. rewrite Hr.
    by rewrite (transform_of_unknown _ _ _ _ pre post n Hs Hpre Hn).
Qed.

(** The create branch is reached without the flag, and with it for a name
    that is not in [header]; only the keywords differ. *)
Lemma add_entries_reaches_create (entry : string) (src : source) (function : callable)
    (override : bool) (keywords : kwargs) (w : console) (d : Dictionary) :
  entry ≠ "" → _header d !! entry = None →
  (override = true → header d !! entry = None) →
  ∃ kw,
    add_entries lower upper entry src function override keywords w d
    = run (create_column lower upper entry src function kw) w d.
Proof.
  intros He Hfree Hov. destruct override.
  - exists []. rewrite (add_entries_retry _ _ _ _ _ _ _ _ He (Hov eq_refl)).
    by apply add_entries_create.
  - exists keywords. by apply add_entries_create.
Qed.

(** X6.  A create on a dictionary whose [_header] is empty never gets an
    index for the new column, whatever the name, the source, the transform
    and the keywords, and whether the call came without the flag or with it
    for a name that is not in [header].  For a name without an alias set it
    raises [ValueError] (there is no index to take the maximum of), with the
    default pair registered by then and nothing else changed.  For a name
    with an alias set nothing has changed at all: it raises [ValueError]
    when [_alias] resolves the lower-cased name, and the [KeyError] of the
    lower-cased name when it does not. *)
Theorem create_empty_header (entry : string) (src : source) (function : callable)
    (override : bool) (keywords : kwargs) (w : console) (d : Dictionary) :
  entry ≠ "" → _header d = ∅ → (override = true → header d !! entry = None) →
  let o := add_entries lower upper entry src function override keywords w d in
  (_alias2 d !! lower entry = None →
   o = Raise ValueError w
         (mkDictionary
            (<[upper entry := lower entry]> (<[lower entry := lower entry]> (_alias d)))
            (<[lower entry := [lower entry; upper entry]]> (_alias2 d))
            (header d) ∅ (entries d) (_data d))) ∧
  (is_Some (_alias2 d !! lower entry) → is_Some (_alias d !! lower entry) →
   o = Raise ValueError w d) ∧
  (is_Some (_alias2 d !! lower entry) → _alias d !! lower entry = None →
   o = Raise (KeyError (VStr (lower entry))) w d).
Proof.
  intros He Hempty Hov o.
  assert (Hfree : _header d !! entry = None) by (by rewrite Hempty, lookup_empty).
  destruct (add_entries_reaches_create entry src function override keywords w d
              He Hfree Hov) as [kw Ho].
  subst o. rewrite Ho. unfold run.
  rewrite create_column_spec, register_spec. cbv zeta.
  split; [|split].
  - intros Hnew.
    destruct (aliased_cases lower upper entry d) as [Hd|(_ & Hal & _)].
    { rewrite (aliased_new _ _ _ _ Hnew) in Hd.
      apply (f_equal _alias2) in Hd. simpl in Hd.
      apply (f_equal (λ m, m !! lower entry)) in Hd.
      rewrite lookup_insert_eq, Hnew in Hd. discriminate. }
    apply dict_get_inr in Hal. rewrite Hal.
    rewrite (aliased_new _ _ _ _ Hnew). simpl. rewrite Hempty.
    unfold dict_values. by rewrite map_to_list_empty.
  - intros Hset [name Hname].
    rewrite (aliased_known _ _ _ _ Hset).
    apply dict_get_inr in Hname. rewrite Hname, Hempty.
    unfold dict_values. by rewrite map_to_list_empty.
  - intros Hset Hnone.
    rewrite (aliased_known _ _ _ _ Hset).
    by rewrite (dict_get_None _ _ Hnone).
Qed.

(** X7.  The row loop is not atomic, whatever the source.  When the derived
    value of a row cannot be computed (the source value is missing, the
    source index is out of range, or the transform raises), the call raises
    that exception with the rows before it written and that row and the rows
    after it as they were; in the override branch the same holds when the
    value cannot be assigned at the index of the column. *)
Theorem row_loop_stops_at_first_failure (entry : string) (src : source)
    (function : callable) (keywords : kwargs) (w : console) (d : Dictionary)
    (pre pre' post : list (Z * row)) (key : Z) (r : row) (e : exn) :
  entry ≠ "" → _data d = pre ++ (key, r) :: post →
  (∀ x d1 g,
     _header d !! entry = None →
     register lower upper entry d = (inr x, d1) →
     transform_of (_header d1) src function keywords = inr g →
     appended g pre pre' → g key r = inl e →
     add_entries lower upper entry src function false keywords w d
     = Raise e w
         (with_data (pre' ++ (key, r) :: post)
            (with_entries (sorted_set (entries d1 ++ [entry])) d1))) ∧
  (∀ rIdx g,
     is_Some (header d !! entry) →
     _header d !! lower entry = Some rIdx →
     transform_of (_header d) src function keywords = inr g →
     assigned g rIdx pre pre' →
     (g key r = inl e ∨ ∃ t, g key r = inr t ∧ py_setitem r rIdx t = inl e) →
     add_entries lower upper entry src function true keywords w d
     = Raise e w (with_data (pre' ++ (key, r) :: post) d)).
Proof.
  intros He Hd. split.
  - intros x d1 g Hfree Hreg Hg Hpre Hfail.
    rewrite (add_entries_create _ _ _ _ _ _ _ _ He Hfree). unfold run.
    rewrite create_column_spec, Hreg, create_rows_spec. simpl. rewrite Hg.
    rewrite (for_key_in_self_raise _ _ pre pre' post key r e); [reflexivity | | |].
    + simpl. by rewrite (register_data _ _ _ _ _ _ Hreg).
    + by apply appended_body.
    + unfold append_with. by rewrite Hfail.
  - intros rIdx g Hreg Hr Hg Hpre Hfail.
    rewrite (add_entries_replace _ _ _ _ _ _ _ _ He Hreg). unfold run.
    rewrite replace_column_spec. apply dict_get_inr in Hr. rewrite Hr, Hg.
    rewrite (for_key_in_self_raise _ _ pre pre' post key r e); [reflexivity | | |].
    + exact Hd.
    + by apply assigned_body.
    + unfold assign_with. destruct Hfail as [Hfail|(t & Ht & Hset)].
      * by rewrite Hfail.
      * by rewrite Ht.
Qed.

End Failures.

(** X4 on the sample dictionary: of the three source columns the second is
    unknown. *)
Lemma create_unknown_source_witness :
  ∃ d',
    add_entries lower_ascii upper_ascii "tokens" (SrcStr "head,stem,translation") shout
      false [] quiet sample
    = Raise (KeyError (VStr "stem")) quiet d' ∧
    is_Some (header d' !! "tokens") ∧ "tokens" ∈ entries d' ∧ _data d' = _data sample.
Proof.
  assert (He : "tokens" ≠ "") by discriminate.
  eapply (create_unknown_source lower_ascii upper_ascii "tokens" "head,stem,translation"
            shout [] quiet sample _ "tokens" 2 ["head"] ["translation"] "stem" He).
  - reflexivity.
  - vm_compute. reflexivity.
  - right. split; reflexivity.
  - repeat constructor. by exists 0.
  - reflexivity.
Defined.

(** X5 on the sample dictionary: an override of [head] from an unknown
    column. *)
Lemma override_unresolved_witness :
  add_entries lower_ascii upper_ascii "head" (SrcStr "stem") shout true [] quiet sample
  = Raise (KeyError (VStr "stem")) quiet sample.
Proof.
  assert (He : "head" ≠ "") by discriminate.
  assert (Hh : is_Some (header sample !! "head")) by (by exists 0).
  destruct (override_unresolved lower_ascii upper_ascii "head" (SrcStr "stem") shout []
              quiet sample He Hh) as [_ Hsrc].
  apply (Hsrc "stem" [] [] "stem"); [reflexivity | by exists 0 | | constructor | reflexivity].
  left. by repeat split.
Defined.

(** X6 on dictionaries without columns: one without alias tables, called
    with the flag; one that has an alias set for [tokens] and resolves the
    name; and one that has the alias set but does not resolve the name. *)
Lemma create_empty_header_witness :
  add_entries lower_ascii upper_ascii "tokens" (SrcStr "head") shout true [] quiet
    (mkDictionary ∅ ∅ ∅ ∅ [] [])
  = Raise ValueError quiet
      (mkDictionary
         (<["TOKENS" := "tokens"]> (<["tokens" := "tokens"]> ∅))
         (<["tokens" := ["tokens"; "TOKENS"]]> ∅) ∅ ∅ [] []) ∧
  (let d := mkDictionary {["tokens" := "tokens"]} {["tokens" := ["tokens"; "Tokens"]]}
              ∅ ∅ [] [(1, [])] in
   add_entries lower_ascii upper_ascii "tokens" (SrcStr "head") shout false [] quiet d
   = Raise ValueError quiet d) ∧
  (let d := mkDictionary ∅ {["tokens" := ["tokens"; "Tokens"]]} ∅ ∅ [] [(1, [])] in
   add_entries lower_ascii upper_ascii "tokens" (SrcStr "head") shout false [] quiet d
   = Raise (KeyError (VStr "tokens")) quiet d).
Proof.
  assert (He : "tokens" ≠ "") by discriminate.
  split; [|split].
  - destruct (create_empty_header lower_ascii upper_ascii "tokens" (SrcStr "head") shout
                true [] quiet (mkDictionary ∅ ∅ ∅ ∅ [] []) He eq_refl)
      as (Hnew & _ & _); [intros _; reflexivity|].
    apply Hnew. reflexivity.
  - intros d.
    destruct (create_empty_header lower_ascii upper_ascii "tokens" (SrcStr "head") shout
                false [] quiet d He eq_refl) as (_ & Hknown & _); [discriminate|].
    apply Hknown; [by exists ["tokens"; "Tokens"] | by exists "tokens"].
  - intros d.
    destruct (create_empty_header lower_ascii upper_ascii "tokens" (SrcStr "head") shout
                false [] quiet d He eq_refl) as (_ & _ & Hmiss); [discriminate|].
    apply Hmiss; [by exists ["tokens"; "Tokens"] | reflexivity].
Defined.

(** X7 on the sample dictionary with a number in the second row: the
    transform takes strings only. *)
Lemma row_loop_stops_at_first_failure_witness :
  ∃ d',
    add_entries lower_ascii upper_ascii "head" (SrcStr "head") shout true [] quiet
      (with_data [(1, [VStr "casa"; VStr "house"]); (2, [VInt 7; VStr "dog"]);
                  (3, [VStr "gato"; VStr "cat"])] sample)
    = Raise TypeError quiet d' ∧
    _data d' = [(1, [VStr "CASA"; VStr "house"]); (2, [VInt 7; VStr "dog"]);
                (3, [VStr "gato"; VStr "cat"])].
Proof.
  assert (He : "head" ≠ "") by discriminate.
  destruct (row_loop_stops_at_first_failure lower_ascii upper_ascii "head" (SrcStr "head")
              shout [] quiet
              (with_data [(1, [VStr "casa"; VStr "house"]); (2, [VInt 7; VStr "dog"]);
                          (3, [VStr "gato"; VStr "cat"])] sample)
              [(1, [VStr "casa"; VStr "house"])] [(1, [VStr "CASA"; VStr "house"])]
              [(3, [VStr "gato"; VStr "cat"])] 2 [VInt 7; VStr "dog"] TypeError
              He eq_refl) as [_ Hover].
  eexists. split.
  - eapply (Hover 0); [by exists 0 | reflexivity | reflexivity | | by left].
    repeat constructor. simpl. eexists. split; reflexivity.
  - reflexivity.
Defined.

(** ** Writing a column and reading it back *)

Lemma py_getitem_app_last (r : row) (t : pyval) (i : Z) :
  Z.of_nat (length r) = i → py_getitem (r ++ [t]) i = inr t.
Proof.
  intros <-. unfold py_getitem, py_index. rewrite length_app. simpl.
  rewrite decide_True by lia. simpl. rewrite Nat2Z.id.
  by rewrite lookup_app_r, Nat.sub_diag by lia.
Qed.

Lemma py_getitem_app_front (r : row) (t v : pyval) (i : Z) :
  0 ≤ i → py_getitem r i = inr v → py_getitem (r ++ [t]) i = inr v.
Proof.
  intros Hi. unfold py_getitem.
  destruct (py_index r i) as [e|k] eqn:Hk; [discriminate|]. simpl.
  apply py_index_inr in Hk as Hk'. destruct Hk' as [Hrange Hlt].
  assert (Hk2 : k = Z.to_nat i).
  { unfold py_index in Hk. rewrite decide_True in Hk by lia. by injection Hk. }
  unfold py_index. rewrite length_app. simpl. rewrite decide_True by lia. simpl.
  rewrite <- Hk2. by rewrite lookup_app_l by lia.
Qed.

Lemma py_index_setitem (r r' : row) (i j : Z) (t : pyval) :
  py_setitem r i t = inr r' → py_index r' j = py_index r j.
Proof.
  intros H. apply py_setitem_length in H. unfold py_index. by rewrite H.
Qed.

Lemma py_get_set_same (r r' : row) (i : Z) (t : pyval) :
  py_setitem r i t = inr r' → py_getitem r' i = inr t.
Proof.
  intros H. unfold py_getitem. rewrite (py_index_setitem _ _ _ _ _ H).
  unfold py_setitem in H. destruct (py_index r i) as [e|k] eqn:Hk; [discriminate|].
  simpl in *. injection H as <-. apply py_index_inr in Hk as [_ Hlt].
  by rewrite list_lookup_insert_eq.
Qed.

Lemma py_get_set_other (r r' : row) (i j : Z) (t : pyval) :
  py_setitem r i t = inr r' → 0 ≤ i → 0 ≤ j → j ≠ i →
  py_getitem r' j = py_getitem r j.
Proof.
  intros H Hi Hj Hne. unfold py_getitem. rewrite (py_index_setitem _ _ _ _ _ H).
  unfold py_setitem in H. destruct (py_index r i) as [e|k] eqn:Hk; [discriminate|].
  simpl in H. injection H as <-.
  destruct (py_index r j) as [e|q] eqn:Hq; [reflexivity|]. simpl.
  assert (k = Z.to_nat i).
  { apply py_index_inr in Hk as Hk'. unfold py_index in Hk.
    rewrite decide_True in Hk by lia. by injection Hk. }
  assert (q = Z.to_nat j).
  { apply py_index_inr in Hq as Hq'. unfold py_index in Hq.
    rewrite decide_True in Hq by lia. by injection Hq. }
  rewrite list_lookup_insert_ne by lia. reflexivity.
Qed.

Lemma res_mapM_Forall2 {A B C} (f : A → res C) (g : B → res C) (l : list A) (l' : list B) :
  Forall2 (λ x y, f x = g y) l l' → res_mapM f l = res_mapM g l'.
Proof. induction 1 as [|x y l l' Hxy _ IH]; simpl; [reflexivity|]. by rewrite Hxy, IH. Qed.

Section ReadBack.

Variables lower upper : string → string.

(** X8.  After a create on a dictionary whose rows are all as wide as the
    largest index bound plus one, the new column reads back: [get_tuples]
    for any name bound to the new index returns, row by row, the derived
    values, and for a name without an alias set both its lower-cased and its
    upper-cased spelling are such names. *)
Theorem create_then_get_tuples (entry : string) (src : source) (function : callable)
    (keywords : kwargs) (w w' : console) (d d' : Dictionary) (m : Z) :
  entry ≠ "" → _header d !! entry = None →
  py_max (dict_values (_header d)) = inr m →
  (∀ key r, (key, r) ∈ _data d → Z.of_nat (length r) = m + 1) →
  add_entries lower upper entry src function false keywords w d = Return w' d' →
  ∃ g ts,
    transform_of (_header d') src function keywords = inr g ∧
    res_mapM (λ kr, g kr.1 kr.2) (_data d) = inr ts ∧
    (∀ c, _header d' !! c = Some (m + 1) → get_tuples [c] d' = inr ts) ∧
    (_alias2 d !! lower entry = None →
     _header d' !! lower entry = Some (m + 1) ∧
     _header d' !! upper entry = Some (m + 1)).
Proof.
  intros He Hfree Hmax Hwide.
  rewrite (add_entries_create _ _ _ _ _ _ _ _ He Hfree). unfold run.
  destruct (create_column lower upper entry src function keywords d) as [[e|u] dd] eqn:Hc;
    [discriminate|]. intros [= _ ->].
  apply create_column_inr in Hc as (x & d1 & g & Hreg & Hg & Hrows & Hd').
  assert (Hh : _header d' = _header d1) by (by rewrite Hd').
  assert (Hts : ∃ ts, res_mapM (λ kr, g kr.1 kr.2) (_data d) = inr ts).
  { apply res_mapM_total. intros kr Hin. apply list_elem_of_lookup in Hin as [p Hp].
    destruct (Forall2_lookup_l _ _ _ _ _ Hrows Hp) as (kr' & _ & _ & t & Ht & _).
    by exists t. }
  destruct Hts as [ts Hts]. exists g, ts. rewrite Hh.
  split; [exact Hg|]. split; [exact Hts|]. split.
  - intros c Hc. rewrite <- Hh in Hc. rewrite (get_tuples_one _ _ _ Hc), <- Hts.
    symmetry. apply res_mapM_Forall2.
    assert (Hall : Forall (λ kr : Z * row, Z.of_nat (length kr.2) = m + 1) (_data d)).
    { apply Forall_forall. intros [key r] Hin. by apply (Hwide key r). }
    clear -Hrows Hall.
    induction Hrows as [|kr kr' rows rows' (Hk & t & Ht & Happ) _ IH];
      [constructor|].
    inversion Hall; subst. constructor; [|by apply IH].
    rewrite Ht, Happ. symmetry. by apply py_getitem_app_last.
  - intros Hnew. rewrite (register_new _ _ _ _ _ Hnew Hmax) in Hreg.
    injection Hreg as _ <-. simpl. split.
    + destruct (decide (upper entry = lower entry)) as [Heq|Hne].
      * rewrite Heq. apply lookup_insert_eq.
      * rewrite lookup_insert_ne by done. apply lookup_insert_eq.
    + apply lookup_insert_eq.
Qed.

(** X9.  After an override that returns, the column reads back:
    [get_tuples] for the lower-cased name returns, row by row, the derived
    values. *)
Theorem override_then_get_tuples (entry : string) (src : source)
    (function : callable) (keywords : kwargs) (w w' : console) (d d' : Dictionary) :
  entry ≠ "" → is_Some (header d !! entry) →
  add_entries lower upper entry src function true keywords w d = Return w' d' →
  ∃ g ts,
    transform_of (_header d) src function keywords = inr g ∧
    res_mapM (λ kr, g kr.1 kr.2) (_data d) = inr ts ∧
    get_tuples [lower entry] d' = inr ts.
Proof.
  intros He Hh. rewrite (add_entries_replace _ _ _ _ _ _ _ _ He Hh). unfold run.
  destruct (replace_column lower entry src function keywords d) as [[e|u] dd] eqn:Hc;
    [discriminate|]. intros [= _ ->].
  apply replace_column_inr in Hc as (rIdx & g & Hr & Hg & Hrows & Hd').
  assert (Hr' : _header d' !! lower entry = Some rIdx) by (by rewrite Hd').
  assert (Hts : ∃ ts, res_mapM (λ kr, g kr.1 kr.2) (_data d) = inr ts).
  { apply res_mapM_total. intros kr Hin. apply list_elem_of_lookup in Hin as [p Hp].
    destruct (Forall2_lookup_l _ _ _ _ _ Hrows Hp) as (kr' & _ & _ & t & Ht & _).
    by exists t. }
  destruct Hts as [ts Hts]. exists g, ts.
  split; [exact Hg|]. split; [exact Hts|].
  rewrite (get_tuples_one _ _ _ Hr'), <- Hts. symmetry. apply res_mapM_Forall2.
  eapply Forall2_impl; [exact Hrows|].
  intros kr kr' (_ & t & Ht & Hset). rewrite Ht. symmetry.
  by apply (py_get_set_same kr.2).
Qed.

(** X10.  An override that returns leaves every other column as it was:
    for a column at a non-negative index other than the (non-negative) index
    of the overridden column, [get_tuples] returns what it returned before
    the call. *)
Theorem override_keeps_other_columns (entry : string) (src : source)
    (function : callable) (keywords : kwargs) (w w' : console) (d d' : Dictionary)
    (rIdx : Z) (c : string) (j : Z) :
  entry ≠ "" → is_Some (header d !! entry) →
  _header d !! lower entry = Some rIdx → _header d !! c = Some j →
  0 ≤ rIdx → 0 ≤ j → j ≠ rIdx →
  add_entries lower upper entry src function true keywords w d = Return w' d' →
  _header d' !! c = Some j ∧ get_tuples [c] d' = get_tuples [c] d.
Proof.
  intros He Hh Hr Hc Hr0 Hj0 Hne.
  rewrite (add_entries_replace _ _ _ _ _ _ _ _ He Hh). unfold run.
  destruct (replace_column lower entry src function keywords d) as [[e|u] dd] eqn:Hrep;
    [discriminate|]. intros [= _ ->].
  apply replace_column_inr in Hrep as (rIdx' & g & Hr' & Hg & Hrows & Hd').
  rewrite Hr in Hr'. injection Hr' as <-.
  assert (Hc' : _header d' !! c = Some j) by (by rewrite Hd').
  split; [exact Hc'|].
  rewrite (get_tuples_one _ _ _ Hc'), (get_tuples_one _ _ _ Hc).
  symmetry. apply res_mapM_Forall2.
  eapply Forall2_impl; [exact Hrows|].
  intros kr kr' (_ & t & _ & Hset). symmetry.
  by apply (py_get_set_other kr.2 _ rIdx j t).
Qed.

(** X11.  A create that returns leaves every column that it did not rebind
    readable as before: for a name that is bound to the same non-negative
    index before and after the call, a [get_tuples] that returned values
    before the call returns the same values after it. *)
Theorem create_keeps_columns (entry : string) (src : source) (function : callable)
    (keywords : kwargs) (w w' : console) (d d' : Dictionary) (c : string) (j : Z)
    (vs : list pyval) :
  entry ≠ "" → _header d !! entry = None →
  _header d !! c = Some j → _header d' !! c = Some j → 0 ≤ j →
  get_tuples [c] d = inr vs →
  add_entries lower upper entry src function false keywords w d = Return w' d' →
  get_tuples [c] d' = inr vs.
Proof.
  intros He Hfree Hc Hc' Hj. rewrite (get_tuples_one _ _ _ Hc).
  rewrite (get_tuples_one _ _ _ Hc'). intros Hvs.
  rewrite (add_entries_create _ _ _ _ _ _ _ _ He Hfree). unfold run.
  destruct (create_column lower upper entry src function keywords d) as [[e|u] dd] eqn:Hcr;
    [discriminate|]. intros [= _ ->].
  apply create_column_inr in Hcr as (x & d1 & g & _ & _ & Hrows & _).
  apply res_mapM_inr. apply res_mapM_inr in Hvs.
  clear -Hrows Hvs Hj. revert vs Hvs.
  induction Hrows as [|kr kr' rows rows' (Hk & t & Ht & Happ) _ IH]; intros vs Hvs.
  - inversion Hvs. constructor.
  - inversion Hvs as [|? v ? vs' Hv Hvs']; subst. constructor; [|by apply IH].
    rewrite Happ. by apply py_getitem_app_front.
Qed.

End ReadBack.

(** X8 on the sample dictionary: the create for [tokens], read back under
    both spellings. *)
Lemma create_then_get_tuples_witness :
  get_tuples ["tokens"] tokenized = inr [VStr "CASA"; VStr "PERRO"] ∧
  get_tuples ["TOKENS"] tokenized = inr [VStr "CASA"; VStr "PERRO"].
Proof.
  assert (He : "tokens" ≠ "") by discriminate.
  assert (Hwide : ∀ key r, (key, r) ∈ _data sample → Z.of_nat (length r) = 1 + 1).
  { intros key r Hin. apply list_elem_of_In in Hin. simpl in Hin.
    destruct Hin as [[= <- <-]|[[= <- <-]|[]]]; reflexivity. }
  assert (Hrun : add_entries lower_ascii upper_ascii "tokens" (SrcStr "head") shout false []
                   quiet sample = Return quiet tokenized) by (vm_compute; reflexivity).
  destruct (create_then_get_tuples lower_ascii upper_ascii "tokens" (SrcStr "head") shout
              [] quiet quiet sample tokenized 1 He eq_refl eq_refl Hwide Hrun)
    as (g & ts & Hg & Hts & Hget & Hnew).
  simpl in Hg. injection Hg as <-. vm_compute in Hts. injection Hts as <-.
  destruct (Hnew eq_refl) as [Hl Hu]. split; by apply Hget.
Defined.

(** X9 on the sample dictionary: an override of [head] from [translation],
    read back. *)
Lemma override_then_get_tuples_witness :
  get_tuples ["head"]
    (with_data [(1, [VStr "HOUSE"; VStr "house"]); (2, [VStr "DOG"; VStr "dog"])]
       sample)
  = inr [VStr "HOUSE"; VStr "DOG"].
Proof.
  assert (He : "head" ≠ "") by discriminate.
  assert (Hh : is_Some (header sample !! "head")) by (by exists 0).
  destruct (override_then_get_tuples lower_ascii upper_ascii "head"
              (SrcStr "translation") shout [] quiet quiet sample
              (with_data [(1, [VStr "HOUSE"; VStr "house"]); (2, [VStr "DOG"; VStr "dog"])]
       sample) He Hh)
    as (g & ts & Hg & Hts & Hget); [vm_compute; reflexivity|].
  simpl in Hg. injection Hg as <-. vm_compute in Hts. injection Hts as <-.
  exact Hget.
Defined.

(** X10 on the sample dictionary: the same override leaves [translation]
    as it was. *)
Lemma override_keeps_other_columns_witness :
  get_tuples ["translation"]
    (with_data [(1, [VStr "HOUSE"; VStr "house"]); (2, [VStr "DOG"; VStr "dog"])]
       sample)
  = get_tuples ["translation"] sample.
Proof.
  assert (He : "head" ≠ "") by discriminate.
  assert (Hh : is_Some (header sample !! "head")) by (by exists 0).
  destruct (override_keeps_other_columns lower_ascii upper_ascii "head"
              (SrcStr "translation") shout [] quiet quiet sample
              (with_data [(1, [VStr "HOUSE"; VStr "house"]); (2, [VStr "DOG"; VStr "dog"])]
       sample) 0 "translation" 1 He Hh eq_refl eq_refl) as [_ Hsame];
    [lia | lia | lia | vm_compute; reflexivity |].
  exact Hsame.
Defined.

(** X11 on the sample dictionary: after the create for [tokens] the column
    [head] reads as before. *)
Lemma create_keeps_columns_witness :
  get_tuples ["head"] tokenized = inr [VStr "casa"; VStr "perro"].
Proof.
  assert (He : "tokens" ≠ "") by discriminate.
  apply (create_keeps_columns lower_ascii upper_ascii "tokens" (SrcStr "head") shout []
           quiet quiet sample tokenized "head" 0 [VStr "casa"; VStr "perro"] He);
    [reflexivity | reflexivity | reflexivity | lia | reflexivity |].
  vm_compute. reflexivity.
Defined.

(** * Further properties of get_tuples *)

Lemma get_idxs_filter (columns : list string) (d : Dictionary) :
  get_idxs (filter (λ c, is_Some (_header d !! c)) columns) d = get_idxs columns d.
Proof.
  unfold get_idxs. induction columns as [|c cs IH]; [reflexivity|].
  rewrite filter_cons. simpl.
  destruct (_header d !! c) as [i|] eqn:Hc.
  - rewrite decide_True by (by eexists). simpl. rewrite Hc. by f_equal.
  - rewrite decide_False by (by intros [? ?]). exact IH.
Qed.

Lemma get_idxs_elem (columns : list string) (d : Dictionary) (i : Z) :
  i ∈ get_idxs columns d ↔ ∃ c, c ∈ columns ∧ _header d !! c = Some i.
Proof. unfold get_idxs. apply list_elem_of_omap. Qed.

(** X12.  [get_tuples] skips the requested names that are not in the header
    without a trace: the result is that of the request without them. *)
Theorem get_tuples_skips_unknown (columns : list string) (d : Dictionary) :
  get_tuples columns d
  = get_tuples (filter (λ c, is_Some (_header d !! c)) columns) d.
Proof. unfold get_tuples. by rewrite get_idxs_filter. Qed.

Lemma res_mapM_inl {A B} (f : A → res B) (l : list A) (e : exn) :
  res_mapM f l = inl e → ∃ x, x ∈ l ∧ f x = inl e.
Proof.
  induction l as [|x l IH]; simpl; [discriminate|].
  destruct (f x) as [e'|y] eqn:Hx.
  - intros [= ->]. exists x. split; [left | exact Hx].
  - destruct (res_mapM f l) as [e'|ys]; [|discriminate].
    intros [= ->]. destruct IH as (z & Hz & Hfz); [reflexivity|].
    exists z. split; [by right | exact Hfz].
Qed.

Lemma py_getitem_inl (r : row) (i : Z) (e : exn) :
  py_getitem r i = inl e → e = IndexError ∧ ¬ valid_index r i.
Proof.
  intros H. split.
  - unfold py_getitem in H. destruct (py_index r i) as [e'|k] eqn:Hk.
    + simpl in H. injection H as <-. revert Hk. unfold py_index, raise. cbv zeta.
      repeat case_decide; intros Hk; try discriminate Hk. by injection Hk.
    + change (match r !! k with
              | Some v => inr v
              | None => raise IndexError
              end = inl e) in H.
      revert H. destruct (r !! k); [discriminate|]. unfold raise. by intros [= <-].
  - intros Hv. apply py_getitem_valid in Hv as [v Hv]. congruence.
Qed.

Lemma itemgetter_inl (idxs : list Z) (r : row) (e : exn) :
  itemgetter idxs r = inl e → e = IndexError ∧ ∃ i, i ∈ idxs ∧ ¬ valid_index r i.
Proof.
  unfold itemgetter. destruct (res_mapM (py_getitem r) idxs) as [e'|vs] eqn:H;
    [|discriminate].
  simpl. intros [= ->]. apply res_mapM_inl in H as (i & Hi & Hget).
  apply py_getitem_inl in Hget as [-> Hv]. split; [reflexivity|]. by exists i.
Qed.

Lemma itemgetter_valid (idxs : list Z) (r : row) :
  (∀ i, i ∈ idxs → valid_index r i) → ∃ v, itemgetter idxs r = inr v.
Proof.
  intros H. unfold itemgetter.
  destruct (res_mapM_total (py_getitem r) idxs) as [vs Hvs].
  { intros i Hi. by apply py_getitem_valid, H. }
  rewrite Hvs. by eexists.
Qed.

Lemma py_getitem_invalid (r : row) (i : Z) :
  ¬ valid_index r i → py_getitem r i = inl IndexError.
Proof.
  intros Hv. destruct (py_getitem r i) as [e|v] eqn:H.
  - by apply py_getitem_inl in H as [-> _].
  - by apply py_getitem_inr in H.
Qed.

(** A traversal whose steps raise nothing but [e] raises [e] as soon as one
    of its elements does. *)
Lemma res_mapM_raises {A B} (f : A → res B) (l : list A) (x : A) (e : exn) :
  (∀ y e', y ∈ l → f y = inl e' → e' = e) →
  x ∈ l → f x = inl e → res_mapM f l = inl e.
Proof.
  induction l as [|y l IH]; intros Honly Hin Hx.
  - by apply elem_of_nil in Hin.
  - simpl. destruct (f y) as [e'|z] eqn:Hy.
    + f_equal. apply (Honly y e'); [left | exact Hy].
    + apply elem_of_cons in Hin as [->|Hin]; [congruence|].
      rewrite IH; [reflexivity | | exact Hin | exact Hx].
      intros y' e' Hy' Hfy'. apply (Honly y' e'); [by right | exact Hfy'].
Qed.

Lemma itemgetter_invalid (idxs : list Z) (r : row) (i : Z) :
  i ∈ idxs → ¬ valid_index r i → itemgetter idxs r = inl IndexError.
Proof.
  intros Hi Hv. destruct (itemgetter idxs r) as [e|v] eqn:H.
  - by apply itemgetter_inl in H as [-> _].
  - exfalso. unfold itemgetter in H.
    rewrite (res_mapM_raises (py_getitem r) idxs i IndexError) in H;
      [discriminate H | | exact Hi | by apply py_getitem_invalid].
    intros j e' _ Hj. by apply py_getitem_inl in Hj as [-> _].
Qed.

(** X13.  The only exception [get_tuples] raises is [IndexError], and it
    raises it exactly when some row has no value at the index of some
    requested name that is in the header: a short row makes it raise, and
    without one it returns.  When it returns and at least one requested name
    is in the header, the result has one entry per row. *)
Theorem get_tuples_raises_only_IndexError (columns : list string) (d : Dictionary) :
  (∀ e, get_tuples columns d = inl e → e = IndexError) ∧
  (get_tuples columns d = inl IndexError ↔
   ∃ key r c i, (key, r) ∈ _data d ∧ c ∈ columns ∧ _header d !! c = Some i ∧
                ¬ valid_index r i) ∧
  ((∀ key r c i, (key, r) ∈ _data d → c ∈ columns → _header d !! c = Some i →
                 valid_index r i) →
   ∃ vs, get_tuples columns d = inr vs) ∧
  (∀ vs c, get_tuples columns d = inr vs → c ∈ columns → is_Some (_header d !! c) →
     length vs = length (_data d)).
Proof.
  pose proof (get_idxs_elem columns d) as Helem.
  unfold get_tuples.
  destruct (get_idxs columns d) as [|i [|i2 idxs]] eqn:Hidx.
  - split; [discriminate|]. split; [|split; [by eexists|]].
    + split; [discriminate|]. intros (key & r & c & j & _ & Hc & Hj & _).
      assert (Hin : j ∈ @nil Z) by (apply Helem; by exists c).
      by apply elem_of_nil in Hin.
    + intros vs c _ Hc [j Hj].
      assert (Hin : j ∈ @nil Z) by (apply Helem; by exists c).
      by apply elem_of_nil in Hin.
  - split; [|split; [split|split]].
    + intros e H. apply res_mapM_inl in H as ([key r] & Hin & Hget).
      by apply py_getitem_inl in Hget as [-> _].
    + intros H. apply res_mapM_inl in H as ([key r] & Hin & Hget).
      apply py_getitem_inl in Hget as [_ Hv].
      destruct (proj1 (Helem i)) as (c & Hc & Hci); [left|].
      by exists key, r, c, i.
    + intros (key & r & c & j & Hin & Hc & Hj & Hv).
      assert (Hji : j ∈ [i]) by (apply Helem; by exists c).
      apply list_elem_of_singleton in Hji as ->.
      apply (res_mapM_raises _ _ (key, r)); [| exact Hin | by apply py_getitem_invalid].
      intros kr e' _ Hkr. by apply py_getitem_inl in Hkr as [-> _].
    + intros Hvalid. apply res_mapM_total. intros [key r] Hin. simpl.
      destruct (proj1 (Helem i)) as (c & Hc & Hci); [left|].
      apply py_getitem_valid. by apply (Hvalid key r c i).
    + intros vs c H _ _. apply res_mapM_inr, Forall2_length in H. by symmetry.
  - split; [|split; [split|split]].
    + intros e H. apply res_mapM_inl in H as ([key r] & Hin & Hget).
      by apply itemgetter_inl in Hget as [-> _].
    + intros H. apply res_mapM_inl in H as ([key r] & Hin & Hget).
      apply itemgetter_inl in Hget as [_ (j & Hj & Hv)].
      destruct (proj1 (Helem j) Hj) as (c & Hc & Hci).
      by exists key, r, c, j.
    + intros (key & r & c & j & Hin & Hc & Hj & Hv).
      assert (Hji : j ∈ i :: i2 :: idxs) by (apply Helem; by exists c).
      apply (res_mapM_raises _ _ (key, r));
        [| exact Hin | by apply (itemgetter_invalid _ _ j)].
      intros kr e' _ Hkr. by apply itemgetter_inl in Hkr as [-> _].
    + intros Hvalid. apply res_mapM_total. intros [key r] Hin. simpl.
      apply itemgetter_valid. intros j Hj.
      destruct (proj1 (Helem j) Hj) as (c & Hc & Hci).
      by apply (Hvalid key r c j).
    + intros vs c H _ _. apply res_mapM_inr, Forall2_length in H. by symmetry.
Qed.

(** X13 on the sample dictionary: every row has a value for both columns,
    and the unknown name does not matter; and with a second row that holds
    one value only, the request for both columns raises. *)
Lemma get_tuples_raises_only_IndexError_witness :
  (∃ vs, get_tuples ["head"; "stem"; "translation"] sample = inr vs) ∧
  get_tuples ["head"; "translation"]
    (with_data [(1, [VStr "casa"; VStr "house"]); (2, [VStr "perro"])] sample)
  = inl IndexError.
Proof.
  split.
  - destruct (get_tuples_raises_only_IndexError ["head"; "stem"; "translation"] sample)
      as (_ & _ & Hok & _).
    apply Hok. intros key r c i Hin Hc Hi.
    assert (Hlen : length r = 2%nat).
    { apply list_elem_of_In in Hin. simpl in Hin.
      destruct Hin as [[= <- <-]|[[= <- <-]|[]]]; reflexivity. }
    assert (Hi' : i = 0 ∨ i = 1).
    { apply list_elem_of_In in Hc. simpl in Hc.
      destruct Hc as [<-|[<-|[<-|[]]]]; vm_compute in Hi;
        first [discriminate Hi | injection Hi as <-; auto]. }
    unfold valid_index. rewrite Hlen. lia.
  - destruct (get_tuples_raises_only_IndexError ["head"; "translation"]
                (with_data [(1, [VStr "casa"; VStr "house"]); (2, [VStr "perro"])] sample))
      as (_ & [_ Hshort] & _).
    apply Hshort. exists 2, [VStr "perro"], "translation", 1.
    split; [right; left|]. split; [right; left|]. split; [reflexivity|].
    unfold valid_index. simpl. lia.
Defined.

(** * Index uniqueness *)

Section Unique.

Variables lower upper : string → string.

Lemma register_inr_full (entry : string) (d d1 : Dictionary) (x : string * Z) :
  register lower upper entry d = (inr x, d1) →
  ∃ name aliases m i,
    _alias (aliased lower upper entry d) !! lower entry = Some name ∧
    py_max (dict_values (_header d)) = inr m ∧
    _alias2 (aliased lower upper entry d) !! name = Some aliases ∧
    bind_aliases (m + 1) aliases (_header d) !! name = Some i ∧
    x = (name, m + 1) ∧
    header d1 = <[name := i]> (header d) ∧
    _header d1 = bind_aliases (m + 1) aliases (_header d).
Proof.
  rewrite register_spec. simpl.
  destruct (aliased_frame lower upper entry d) as (Hhd & Hh & _ & _).
  destruct (dict_get _ (lower entry)) as [e|name] eqn:Hal; [discriminate|].
  destruct (py_max _) as [e|m] eqn:Hmax; [discriminate|].
  destruct (dict_get (_alias2 _) name) as [e|aliases] eqn:Hal2; [discriminate|].
  destruct (dict_get (bind_aliases _ _ _) name) as [e|i] eqn:Hi; [discriminate|].
  intros H. inversion H; subst; clear H. exists name, aliases, m, i. simpl.
  apply dict_get_inr in Hal, Hal2, Hi. rewrite Hh in Hmax, Hi.
  by rewrite Hhd, Hh.
Qed.

(** X14.  Index uniqueness is kept.  When no two canonical names share an
    index and no canonical index lies above every index of [_header], and
    the canonical name of the entry is in its own alias set, the same holds
    after every call of [add_entries] that returns: a create gives its
    column an index above all indices in use. *)
Theorem index_unique_preserved (entry : string) (src : source) (function : callable)
    (override : bool) (keywords : kwargs) (w w' : console) (d d' : Dictionary) :
  header_unique d → header_bound d → canonical_in_set lower upper entry d →
  add_entries lower upper entry src function override keywords w d = Return w' d' →
  header_unique d' ∧ header_bound d'.
Proof.
  intros Hu Hb Hcan Ho.
  destruct (add_entries_paths lower upper entry src function override keywords w d)
    as [Hsame|[(kw' & w2 & He & Hfree & Hrun)|(kw' & w2 & Hrun)]].
  - rewrite Ho in Hsame. simpl in Hsame. by subst d'.
  - rewrite Hrun in Ho. unfold run in Ho.
    destruct (create_column lower upper entry src function kw' d) as [[e|u] dd] eqn:Hc;
      [discriminate|]. injection Ho as _ ->.
    apply create_column_inr in Hc as (x & d1 & g & Hreg & _ & _ & Hd').
    apply register_inr_full in Hreg
      as (name & aliases & m & i & Hal & Hmax & Hal2 & Hi & _ & Hhd & Hh).
    assert (Hhd' : header d' = <[name := i]> (header d)) by (by rewrite Hd').
    assert (Hh' : _header d' = bind_aliases (m + 1) aliases (_header d))
      by (by rewrite Hd').
    assert (Hi' : i = m + 1).
    { rewrite bind_aliases_in in Hi by (by apply (Hcan name aliases)).
      by injection Hi. }
    subst i. destruct (py_max_fresh _ _ Hmax) as [_ Hfresh].
    assert (Hold : ∀ n j, header d !! n = Some j → j < m + 1).
    { intros n j Hn. destruct (Hb n j Hn) as (a & k & Ha & Hle).
      specialize (Hfresh a k Ha). lia. }
    split.
    + intros n1 n2 j. rewrite Hhd'.
      destruct (decide (n1 = name)) as [->|H1], (decide (n2 = name)) as [->|H2];
        try done.
      * rewrite lookup_insert_eq, lookup_insert_ne by done.
        intros [= <-] H. specialize (Hold _ _ H). lia.
      * rewrite lookup_insert_ne, lookup_insert_eq by done.
        intros H [= <-]. specialize (Hold _ _ H). lia.
      * rewrite !lookup_insert_ne by done. apply Hu.
    + intros n j. rewrite Hhd', Hh'. intros Hn.
      exists name, (m + 1). split; [exact Hi|].
      destruct (decide (n = name)) as [->|Hne].
      * rewrite lookup_insert_eq in Hn. injection Hn as <-. lia.
      * rewrite lookup_insert_ne in Hn by done. specialize (Hold _ _ Hn). lia.
  - rewrite Hrun in Ho. unfold run in Ho.
    destruct (replace_column_frame lower entry src function kw' d)
      as [(_ & _ & Hhd & Hh & _) _].
    destruct (replace_column lower entry src function kw' d) as [[e|u] dd];
      [discriminate|]. injection Ho as _ ->. simpl in *.
    split.
    + intros n1 n2 i. rewrite Hhd. apply Hu.
    + intros n j. rewrite Hhd, Hh. apply Hb.
Qed.

End Unique.

(** X14 on the sample dictionary: after the create for [tokens] the three
    canonical names have three indices. *)
Lemma index_unique_preserved_witness :
  header_unique tokenized ∧ header_bound tokenized.
Proof.
  assert (Hin : ∀ n i, header sample !! n = Some i →
                       n = "head" ∧ i = 0 ∨ n = "translation" ∧ i = 1).
  { intros n i H.
    change (header sample)
      with (list_to_map [("head", 0); ("translation", 1)] : gmap string Z) in H.
    apply elem_of_list_to_map_2, list_elem_of_In in H. simpl in H.
    destruct H as [H|[H|[]]]; inversion H; auto. }
  assert (Hu : header_unique sample).
  { intros n1 n2 i H1 H2.
    destruct (Hin _ _ H1) as [[-> ->]|[-> ->]], (Hin _ _ H2) as [[-> Hi]|[-> Hi]];
      first [reflexivity | discriminate Hi]. }
  assert (Hb : header_bound sample).
  { intros n j Hn. exists "translation", 1. split; [reflexivity|].
    destruct (Hin _ _ Hn) as [[_ ->]|[_ ->]]; lia. }
  assert (Hcan : canonical_in_set lower_ascii upper_ascii "tokens" sample).
  { intros name aliases Hname Hal. vm_compute in Hname. injection Hname as <-.
    vm_compute in Hal. injection Hal as <-. left. }
  apply (index_unique_preserved lower_ascii upper_ascii "tokens" (SrcStr "head") shout
           false [] quiet quiet sample tokenized Hu Hb Hcan).
  vm_compute. reflexivity.
Defined.

(** * Properties of tokenize and __init__ *)

Section TokenizeMore.

Variables lower upper : string → string.
Variable Tokenizer : string → res (pyval → res string).

(** X15.  [tokenize] cannot take several source columns.  With a
    comma-separated source whose columns are all in the header and a target
    that is not, on a dictionary with at least one row, it raises
    [TypeError] at the first row, because the transform takes one argument
    and is called with the row and the indices; by then the target is
    registered, and no row has a value for it. *)
Theorem tokenize_several_sources (orthography_profile : option string)
    (s target : string) (conversion : option string) (keywords : kwargs)
    (w : console) (d d1 : Dictionary) (t : pyval → res string) (x : string * Z)
    (key : Z) (r : row) (rest : list (Z * row)) :
  Tokenizer (default "" orthography_profile) = inr t →
  target ≠ "" → _header d !! target = None →
  register lower upper target d = (inr x, d1) →
  str_contains "," s = true →
  Forall (λ c, is_Some (_header d1 !! c)) (str_split "," s) →
  _data d = (key, r) :: rest →
  ∃ d',
    tokenize lower upper Tokenizer orthography_profile (Some (SrcStr s)) (Some target)
      conversion keywords w d = Raise TypeError w d' ∧
    header d' = header d1 ∧ target ∈ entries d' ∧ _data d' = _data d.
Proof.
  intros Ht He Hfree Hreg Hc Hsrc Hd.
  exists (with_data ([] ++ (key, r) :: rest)
            (with_entries (sorted_set (entries d1 ++ [target])) d1)).
  split; [|split; [reflexivity|split]].
  - unfold tokenize. rewrite Ht. simpl.
    rewrite (add_entries_create _ _ _ _ _ _ _ _ He Hfree). unfold run.
    rewrite create_column_spec, Hreg, create_rows_spec. simpl. rewrite Hc.
    destruct (res_mapM_total (dict_get (_header d1)) (str_split "," s)) as [idxs Hidxs].
    { intros c Hin. rewrite Forall_forall in Hsrc. destruct (Hsrc c Hin) as [i Hi].
      exists i. by apply dict_get_inr. }
    rewrite Hidxs. simpl.
    rewrite (for_key_in_self_raise _ _ [] [] rest key r TypeError); [reflexivity | | |].
    + simpl. by rewrite (register_data _ _ _ _ _ _ Hreg).
    + constructor.
    + unfold append_with, tokenize_function.
      by destruct (bool_decide (target = "tokens")).
  - simpl. apply sorted_set_elem, elem_of_app. right. by apply list_elem_of_singleton.
  - simpl. by symmetry.
Qed.

(** X16.  [tokenize] has no way to override: for a target that is a key of
    [_header] it asks at the prompt.  With no line to read it raises
    [EOFError] and with an answer that is not affirmative it returns, and in
    both cases the column is as it was. *)
Theorem tokenize_existing_target (orthography_profile : option string)
    (src : option source) (target : string) (conversion : option string)
    (keywords : kwargs) (w : console) (d : Dictionary) (t : pyval → res string) :
  Tokenizer (default "" orthography_profile) = inr t →
  target ≠ "" → is_Some (_header d !! target) →
  let o := tokenize lower upper Tokenizer orthography_profile src (Some target)
             conversion keywords w d in
  (stdin w = [] → ∃ w', o = Raise EOFError w' d) ∧
  (∀ answer rest, stdin w = answer :: rest → affirmative lower answer = false →
     ∃ w', o = Return w' d ∧ stdin w' = rest).
Proof.
  intros Ht He Hh o. subst o. unfold tokenize. rewrite Ht. simpl.
  rewrite (add_entries_conflict _ _ _ _ _ _ _ _ He Hh). unfold input, print. simpl.
  split.
  - intros ->. by eexists.
  - intros answer rest -> Hno. simpl. rewrite Hno. by eexists.
Qed.

End TokenizeMore.

(** X15 on the sample dictionary: the source [head,translation]. *)
Lemma tokenize_several_sources_witness :
  ∃ d',
    tokenize lower_ascii upper_ascii letter_tokenizer None (Some (SrcStr "head,translation"))
      (Some "tokens") None [] quiet sample = Raise TypeError quiet d' ∧
    header d' = header tokenized ∧ "tokens" ∈ entries d' ∧ _data d' = _data sample.
Proof.
  assert (He : "tokens" ≠ "") by discriminate.
  edestruct (tokenize_several_sources lower_ascii upper_ascii letter_tokenizer None
               "head,translation" "tokens" None [] quiet sample) as (d' & Hrun & Hhd & H);
    [reflexivity | exact He | reflexivity | vm_compute; reflexivity | reflexivity
    | | reflexivity |].
  - repeat constructor; by eexists.
  - exists d'. split; [exact Hrun|]. split; [|exact H]. rewrite Hhd. reflexivity.
Defined.

(** X16 on the tokenized dictionary: a second [tokenize] with the answer
    [n]. *)
Lemma tokenize_existing_target_witness :
  ∃ w',
    tokenize lower_ascii upper_ascii letter_tokenizer None None (Some "tokens") None []
      (mkConsole ["n"] []) tokenized = Return w' tokenized ∧
    stdin w' = [].
Proof.
  assert (He : "tokens" ≠ "") by discriminate.
  assert (Hh : is_Some (_header tokenized !! "tokens")) by (by exists 2).
  destruct (tokenize_existing_target lower_ascii upper_ascii letter_tokenizer None None
              "tokens" None [] (mkConsole ["n"] []) tokenized _ eq_refl He Hh)
    as [_ Hno].
  apply (Hno "n" []); reflexivity.
Defined.

(** ** The doculect table of __init__ *)

Lemma strs_getitem_0 (a : string) (l : list string) : strs_getitem (a :: l) 0 = inr a.
Proof.
  unfold strs_getitem, py_index. cbv zeta.
  rewrite decide_True by (simpl length; lia). reflexivity.
Qed.

Lemma strs_getitem_1 (a b : string) (l : list string) :
  strs_getitem (a :: b :: l) 1 = inr b.
Proof.
  unfold strs_getitem, py_index. cbv zeta.
  rewrite decide_True by (simpl length; lia). reflexivity.
Qed.

Lemma strs_getitem_1_short (a : string) : strs_getitem [a] 1 = inl IndexError.
Proof. reflexivity. Qed.

Lemma re_split_comma_nonempty (s : string) : re_split_comma s ≠ [].
Proof.
  destruct s as [|c s]; simpl; [discriminate|].
  destruct (Ascii.eqb c ",").
  - destruct s as [|c' s]; [discriminate|]. destruct (Ascii.eqb c' " "); discriminate.
  - destruct (re_split_comma s); discriminate.
Qed.

(** Without a comma there is nothing to cut. *)
Lemma re_split_comma_none (s : string) :
  str_contains "," s = false → re_split_comma s = [s].
Proof.
  induction s as [|c s IH]; simpl; [reflexivity|].
  destruct (Ascii.eqb c ","); [discriminate|]. intros H. by rewrite IH.
Qed.

(** A line "name, iso" is cut into the name and the code. *)
Lemma re_split_comma_line (n i : string) :
  str_contains "," n = false → str_contains "," i = false →
  re_split_comma (doculect_line (n, i)) = [n; i].
Proof.
  intros Hn Hi. unfold doculect_line.
  change ((n, i).1 +:+ ", " +:+ (n, i).2) with (n +:+ String "," (String " " i)).
  induction n as [|c n IH].
  - change (re_split_comma ("" +:+ String "," (String " " i)))
      with (EmptyString :: re_split_comma i).
    by rewrite (re_split_comma_none _ Hi).
  - change (String c n +:+ String "," (String " " i))
      with (String c (n +:+ String "," (String " " i))).
    simpl in Hn. destruct (Ascii.eqb c ",") eqn:Hc; [discriminate|].
    change (re_split_comma (String c (n +:+ String "," (String " " i))))
      with (if Ascii.eqb c ","
            then match n +:+ String "," (String " " i) with
                 | String c' s'' =>
                     if Ascii.eqb c' " " then EmptyString :: re_split_comma s''
                     else EmptyString :: re_split_comma (n +:+ String "," (String " " i))
                 | EmptyString =>
                     EmptyString :: re_split_comma (n +:+ String "," (String " " i))
                 end
            else match re_split_comma (n +:+ String "," (String " " i)) with
                 | [] => [String c EmptyString]
                 | p :: ps => String c p :: ps
                 end).
    rewrite Hc, (IH Hn). reflexivity.
Qed.

Lemma doculect_loop_lines (pairs : list (string * string)) (acc : gmap string string) :
  Forall (λ p, str_contains "," p.1 = false ∧ str_contains "," p.2 = false) pairs →
  doculect_loop (doculect_line <$> pairs) acc
  = inr (foldl (λ m p, <[p.1 := p.2]> m) acc pairs).
Proof.
  intros H. revert acc. induction H as [|[n i] pairs [Hn Hi] _ IH]; intros acc;
    [reflexivity|].
  simpl in *. rewrite (re_split_comma_line n i Hn Hi).
  rewrite strs_getitem_0, strs_getitem_1. simpl. apply IH.
Qed.

Lemma foldl_insert_out (pairs : list (string * string)) (acc : gmap string string)
    (n : string) :
  n ∉ pairs.*1 → foldl (λ m p, <[p.1 := p.2]> m) acc pairs !! n = acc !! n.
Proof.
  revert acc. induction pairs as [|[k v] pairs IH]; intros acc Hn; [reflexivity|].
  simpl in *. rewrite IH by (intros Hin; apply Hn; by right).
  apply lookup_insert_ne. intros ->. apply Hn. left.
Qed.

Lemma doculect_loop_raises (l : list string) (acc : gmap string string) :
  (∀ e, doculect_loop l acc = inl e → e = IndexError) ∧
  ((∃ s, s ∈ l ∧ str_contains "," s = false) →
   doculect_loop l acc = inl IndexError).
Proof.
  revert acc. induction l as [|s l IH]; intros acc.
  { split; [discriminate|]. intros (s & Hs & _). by apply elem_of_nil in Hs. }
  simpl. pose proof (re_split_comma_nonempty s) as Hne.
  destruct (re_split_comma s) as [|a [|b ps]] eqn:Hsplit; [done| |].
  - rewrite strs_getitem_0, strs_getitem_1_short. simpl.
    split; [by intros e [= <-] | reflexivity].
  - rewrite strs_getitem_0, strs_getitem_1. simpl.
    destruct (IH (<[a := b]> acc)) as [IH1 IH2]. split; [exact IH1|].
    intros (s' & Hs' & Hc). apply IH2.
    apply elem_of_cons in Hs' as [->|Hs']; [|by exists s'].
    rewrite (re_split_comma_none _ Hc) in Hsplit. discriminate.
Qed.

Section InitProperties.

Variable str_item : string → Z → res string.

(** X17.  The doculect table round-trips.  From a list of lines "name, iso"
    whose names and codes hold no comma, [__init__] builds a table in which
    every name maps to the code of the last line with that name, and which
    has no other names. *)
Theorem doculects_round_trip (_meta : gmap string meta) (pairs : list (string * string))
    (h t : meta) :
  Forall (λ p, str_contains "," p.1 = false ∧ str_contains "," p.2 = false) pairs →
  _meta !! "doculect" = Some (MList (doculect_line <$> pairs)) →
  _meta !! "head_iso" = Some h → _meta !! "translation_iso" = Some t →
  ∃ md,
    init_metadata str_item _meta = inr md ∧
    (∀ pre n i post, pairs = pre ++ (n, i) :: post → n ∉ post.*1 →
       doculect2iso md !! n = Some i) ∧
    (∀ n, n ∉ pairs.*1 → doculect2iso md !! n = None).
Proof.
  intros Hpairs Hd Hh Ht.
  exists (mkMetadata (foldl (λ m p, <[p.1 := p.2]> m) ∅ pairs) (iso_list h) (iso_list t)).
  split; [|split].
  - unfold init_metadata, meta_get. rewrite Hd, Hh, Ht. simpl.
    by rewrite (doculect_loop_lines _ _ Hpairs).
  - intros pre n i post -> Hn. simpl. rewrite foldl_app. simpl.
    rewrite foldl_insert_out by done. apply lookup_insert_eq.
  - intros n Hn. simpl. rewrite foldl_insert_out by done. apply lookup_empty.
Qed.

(** X18.  A doculect line without a comma makes [__init__] fail: with a list
    of lines of which one holds no comma, the metadata step raises
    [IndexError], whatever the other lines are. *)
Theorem doculect_without_comma (_meta : gmap string meta) (l : list string) (s : string) :
  _meta !! "doculect" = Some (MList l) →
  s ∈ l → str_contains "," s = false →
  init_metadata str_item _meta = inl IndexError.
Proof.
  intros Hd Hs Hc. unfold init_metadata, meta_get. rewrite Hd. simpl.
  destruct (doculect_loop_raises l ∅) as [_ Hraise].
  rewrite Hraise; [reflexivity|]. by exists s.
Qed.

End InitProperties.

(** X17 on two doculects, one given twice. *)
Lemma doculects_round_trip_witness :
  ∃ md,
    init_metadata (λ _ _, raise TypeError)
      (list_to_map
         [("doculect", MList ["Spanish, spa"; "English, eng"; "Spanish, es"]);
          ("head_iso", MStr "spa"); ("translation_iso", MList ["eng"; "deu"])])
    = inr md ∧
    doculect2iso md !! "Spanish" = Some "es" ∧
    doculect2iso md !! "English" = Some "eng" ∧
    doculect2iso md !! "German" = None.
Proof.
  edestruct (doculects_round_trip (λ _ _, raise TypeError)
               (list_to_map
                  [("doculect", MList ["Spanish, spa"; "English, eng"; "Spanish, es"]);
                   ("head_iso", MStr "spa"); ("translation_iso", MList ["eng"; "deu"])])
               [("Spanish", "spa"); ("English", "eng"); ("Spanish", "es")])
    as (md & Hmd & Hlast & Hnone);
    [by repeat constructor | reflexivity | reflexivity | reflexivity |].
  exists md. split; [exact Hmd|]. split; [|split].
  - apply (Hlast [("Spanish", "spa"); ("English", "eng")] "Spanish" "es" []);
      [reflexivity|]. apply not_elem_of_nil.
  - apply (Hlast [("Spanish", "spa")] "English" "eng" [("Spanish", "es")]);
      [reflexivity|]. simpl. intros H.
    apply list_elem_of_singleton in H. discriminate H.
  - apply Hnone. simpl. intros H.
    repeat (apply elem_of_cons in H as [H|H]; [discriminate H|]).
    by apply elem_of_nil in H.
Defined.

(** X18 on a list whose second line has no comma. *)
Lemma doculect_without_comma_witness :
  init_metadata (λ _ _, raise TypeError)
    (list_to_map [("doculect", MList ["Spanish, spa"; "English"])])
  = inl IndexError.
Proof.
  apply (doculect_without_comma (λ _ _, raise TypeError)
           (list_to_map [("doculect", MList ["Spanish, spa"; "English"])])
           ["Spanish, spa"; "English"] "English"); [reflexivity | | reflexivity].
  right. left.
Defined.

(** X19 on the sample dictionary: the create for [tokens] keeps the row
    width. *)
Lemma row_width_preserved_witness : row_width tokenized.
Proof.
  assert (Hw : row_width sample).
  { intros key r Hin. apply list_elem_of_In in Hin. simpl in Hin.
    destruct Hin as [[= <- <-]|[[= <- <-]|[]]]; reflexivity. }
  apply (row_width_preserved lower_ascii upper_ascii "tokens" (SrcStr "head") shout false
           [] quiet quiet sample tokenized Hw).
  - intros name _ Hname. vm_compute in Hname. injection Hname as <-. reflexivity.
  - vm_compute. reflexivity.
Defined.
